(** * Conversation API client: response parsing and the conversational call

    A shallow embedding of [src/conversation/client.py], of the earlier,
    aggregate-only [src/app.py] and of the script [src/example.py], together
    with the properties of the response parser, of
    [ConversationAPI.enter_prompt] and of their callers.

    Python values are modelled as follows.
    - [str] is a sequence of Unicode code points, [bytes] a sequence of bytes.
    - An exception is a constructor of [exn]; a call that may raise returns a
      [result].
    - [bytes.decode('utf-8')], [str.startswith], [json.loads] and subscripting
      are library functions of Python; they are modelled here as total
      functions so that the parser can be run on concrete lines.  Resource
      limits of the interpreter (recursion depth, the digit limit of integer
      conversion) and the numeric value of a JSON float are outside the model:
      a float is kept as its lexeme.
    - The body of a [requests.Response] is the finite sequence of lines that
      [iter_lines()] yields; a body that breaks in the middle of the transfer
      is outside the model.
    - What a call of [print] does, writing or raising, is up to [sys.stdout];
      it is a parameter of the prompt loop of [src/app.py] and of the script
      [src/example.py]. *)

From Stdlib.Strings Require Import Ascii String Byte.
From Stdlib Require Import List NArith ZArith Bool Lia.
From Equations.Prop Require Import Equations Logic.
Import ListNotations.

Set Implicit Arguments.

(** ** Python strings and bytes *)

Definition codepoint := N.
Definition str := list codepoint.
Definition bytes := list Byte.byte.

(** Rocq string literals cannot hold a double quote, so ASCII literals are
    written the way Python itself allows, with an apostrophe wherever the
    Python text has a double quote; [pyq] puts the double quote (code 34)
    back. *)
Definition pyq (c : N) : N := if (c =? 39)%N then 34%N else c.

Definition lit (s : string) : str :=
  map (fun b => pyq (Byte.to_N b)) (list_byte_of_string s).

Definition blit (s : string) : bytes :=
  map (fun b => match Byte.of_N (pyq (Byte.to_N b)) with
                | Some b' => b'
                | None => b
                end) (list_byte_of_string s).

Fixpoint str_eqb (a b : str) : bool :=
  match a, b with
  | [], [] => true
  | x :: a', y :: b' => (x =? y)%N && str_eqb a' b'
  | _, _ => false
  end.

(** [s.startswith(prefix)] *)
Fixpoint startswith (s prefix : str) : bool :=
  match prefix, s with
  | [], _ => true
  | p :: prefix', c :: s' => (c =? p)%N && startswith s' prefix'
  | _ :: _, [] => false
  end.

(** ** Exceptions and results *)

Inductive exn :=
| UnicodeDecodeError
| UnicodeEncodeError
| JSONDecodeError
| KeyError
| TypeError
| StreamConsumedError      (* requests.exceptions.StreamConsumedError *)
| ConnectionError          (* requests.exceptions.ConnectionError *)
| Timeout                  (* requests.exceptions.Timeout *)
| RequestException         (* any other requests.RequestException *)
| OtherError.              (* an exception outside the hierarchy of requests *)

Inductive result (A : Type) :=
| Return (a : A)
| Raise (e : exn).
Arguments Return {A} a.
Arguments Raise {A} e.

Definition rbind {A B} (r : result A) (k : A -> result B) : result B :=
  match r with
  | Return a => k a
  | Raise e => Raise e
  end.

(** [isinstance(e, requests.RequestException)]: StreamConsumedError,
    ConnectionError and Timeout are subclasses of RequestException. *)
Definition is_RequestException (e : exn) : bool :=
  match e with
  | StreamConsumedError | ConnectionError | Timeout | RequestException => true
  | _ => false
  end.

(** ** [bytes.decode('utf-8')] (strict error handling) *)

Module Utf8.
Local Open Scope N_scope.

Definition between (lo hi b : N) : bool := (lo <=? b) && (b <=? hi).

Definition cont (b : N) : bool := between 0x80 0xBF b.

(** The second byte of a three-byte sequence: no overlong form after E0 and
    no surrogate after ED. *)
Definition second3 (b0 b1 : N) : bool :=
  if b0 =? 0xE0 then between 0xA0 0xBF b1
  else if b0 =? 0xED then between 0x80 0x9F b1
  else cont b1.

(** The second byte of a four-byte sequence: no overlong form after F0 and
    nothing above U+10FFFF after F4. *)
Definition second4 (b0 b1 : N) : bool :=
  if b0 =? 0xF0 then between 0x90 0xBF b1
  else if b0 =? 0xF4 then between 0x80 0x8F b1
  else cont b1.

Fixpoint scalars (bs : list N) : option str :=
  match bs with
  | [] => Some []
  | b0 :: r0 =>
    if b0 <? 0x80 then option_map (cons b0) (scalars r0)
    else if between 0xC2 0xDF b0 then
      match r0 with
      | b1 :: r1 =>
        if cont b1
        then option_map (cons ((b0 - 0xC0) * 64 + (b1 - 0x80))) (scalars r1)
        else None
      | _ => None
      end
    else if between 0xE0 0xEF b0 then
      match r0 with
      | b1 :: b2 :: r2 =>
        if second3 b0 b1 && cont b2
        then option_map
               (cons ((b0 - 0xE0) * 4096 + (b1 - 0x80) * 64 + (b2 - 0x80)))
               (scalars r2)
        else None
      | _ => None
      end
    else if between 0xF0 0xF4 b0 then
      match r0 with
      | b1 :: b2 :: b3 :: r3 =>
        if second4 b0 b1 && cont b2 && cont b3
        then option_map
               (cons ((b0 - 0xF0) * 262144 + (b1 - 0x80) * 4096
                      + (b2 - 0x80) * 64 + (b3 - 0x80)))
               (scalars r3)
        else None
      | _ => None
      end
    else None
  end.

Definition decode (b : bytes) : result str :=
  match scalars (map Byte.to_N b) with
  | Some s => Return s
  | None => Raise UnicodeDecodeError
  end.

End Utf8.

(** ** Python values as [json.loads] builds them *)

#[warnings="-register-all"]
Inductive value :=
| VNone
| VBool (b : bool)
| VInt (z : Z)
| VFloat (lexeme : str)
| VStr (s : str)
| VList (items : list value)
| VDict (entries : list (str * value)).

(** A [dict] keeps its keys in insertion order; storing under a key that is
    present replaces the value in place. *)
Fixpoint dict_setitem (k : str) (v : value) (d : list (str * value))
  : list (str * value) :=
  match d with
  | [] => [(k, v)]
  | (k', v') :: d' =>
    if str_eqb k' k then (k', v) :: d' else (k', v') :: dict_setitem k v d'
  end.

Fixpoint dict_lookup (k : str) (d : list (str * value)) : option value :=
  match d with
  | [] => None
  | (k', v') :: d' => if str_eqb k' k then Some v' else dict_lookup k d'
  end.

(** [o[k]] for a string key [k]: only a dict can be subscripted by a string. *)
Definition getitem (o : value) (k : str) : result value :=
  match o with
  | VDict d =>
    match dict_lookup k d with
    | Some v => Return v
    | None => Raise KeyError
    end
  | _ => Raise TypeError
  end.

(** ** [json.loads] on a [str]

    The decoder is modelled in two passes over the text, both by structural
    recursion: a lexer that is a state machine over the characters, and a
    pushdown parser over the tokens.  The language accepted and the values
    built are those of CPython's decoder with its default settings: strict
    strings, [NaN], [Infinity] and [-Infinity] accepted, the last of several
    equal keys kept. *)

Module Json.
Local Open Scope N_scope.

Inductive token :=
| TLBrace | TRBrace | TLBracket | TRBracket | TColon | TComma
| TAtom (v : value).

Inductive num_state :=
| NMinus          (* after the sign *)
| NZero           (* the integer part is 0 *)
| NInt            (* inside the integer part *)
| NDot            (* after the decimal point *)
| NFrac           (* inside the fraction *)
| NExp            (* after e or E *)
| NExpSign        (* after the sign of the exponent *)
| NExpDigits.     (* inside the exponent *)

Inductive mode :=
| LTop                                    (* between tokens *)
| LWord (rest : str) (v : value)          (* inside true, false, null, NaN, Infinity *)
| LStr (acc : str)                        (* inside a string; [acc] is reversed *)
| LEsc (acc : str)                        (* after a backslash *)
| LHex (acc : str) (high : option N) (k : nat) (u : N)
                                          (* inside \uXXXX, [S k] digits to go *)
| LHigh (acc : str) (h : N)               (* after a \uXXXX that is a high surrogate *)
| LHighEsc (acc : str) (h : N)            (* ... followed by a backslash *)
| LNum (st : num_state) (acc : str).      (* inside a number; [acc] is reversed *)

Definition is_ws (c : N) : bool :=
  (c =? 32) || (c =? 9) || (c =? 10) || (c =? 13).

Definition is_digit (c : N) : bool := (48 <=? c) && (c <=? 57).

Definition hex_digit (c : N) : option N :=
  if is_digit c then Some (c - 48)
  else if (97 <=? c) && (c <=? 102) then Some (c - 87)
  else if (65 <=? c) && (c <=? 70) then Some (c - 55)
  else None.

Definition is_high (u : N) : bool := (0xD800 <=? u) && (u <=? 0xDBFF).
Definition is_low (u : N) : bool := (0xDC00 <=? u) && (u <=? 0xDFFF).

Definition join_surrogates (h l : N) : N :=
  0x10000 + ((h - 0xD800) * 1024 + (l - 0xDC00)).

(** The value of an integer lexeme (given reversed, as the lexer holds it). *)
Fixpoint digits_value (rev_digits : str) : Z :=
  match rev_digits with
  | [] => 0%Z
  | c :: r => (Z.of_N (c - 48) + 10 * digits_value r)%Z
  end.

Definition int_value (rev_lexeme : str) : Z :=
  match rev rev_lexeme with
  | 45 :: ds => (- digits_value (rev ds))%Z
  | ds => digits_value (rev ds)
  end.

Definition number_token (st : num_state) (acc : str) : option token :=
  match st with
  | NZero | NInt => Some (TAtom (VInt (int_value acc)))
  | NFrac | NExpDigits => Some (TAtom (VFloat (rev acc)))
  | _ => None
  end.

(** A character met between tokens. *)
Definition top_char (c : N) : option (list token * mode) :=
  if is_ws c then Some ([], LTop)
  else if c =? 123 then Some ([TLBrace], LTop)
  else if c =? 125 then Some ([TRBrace], LTop)
  else if c =? 91 then Some ([TLBracket], LTop)
  else if c =? 93 then Some ([TRBracket], LTop)
  else if c =? 58 then Some ([TColon], LTop)
  else if c =? 44 then Some ([TComma], LTop)
  else if c =? 34 then Some ([], LStr [])
  else if c =? 45 then Some ([], LNum NMinus [c])
  else if c =? 48 then Some ([], LNum NZero [c])
  else if is_digit c then Some ([], LNum NInt [c])
  else if c =? 116 then Some ([], LWord (lit "rue") (VBool true))
  else if c =? 102 then Some ([], LWord (lit "alse") (VBool false))
  else if c =? 110 then Some ([], LWord (lit "ull") VNone)
  else if c =? 78 then Some ([], LWord (lit "aN") (VFloat (lit "NaN")))
  else if c =? 73 then Some ([], LWord (lit "nfinity") (VFloat (lit "Infinity")))
  else None.

(** A character met inside a string. *)
Definition str_char (acc : str) (c : N) : option (list token * mode) :=
  if c =? 34 then Some ([TAtom (VStr (rev acc))], LTop)
  else if c =? 92 then Some ([], LEsc acc)
  else if c <? 32 then None
  else Some ([], LStr (c :: acc)).

(** The character after a backslash. *)
Definition esc_char (acc : str) (c : N) : option (list token * mode) :=
  if c =? 117 then Some ([], LHex acc None 3 0)
  else if c =? 34 then Some ([], LStr (34 :: acc))
  else if c =? 92 then Some ([], LStr (92 :: acc))
  else if c =? 47 then Some ([], LStr (47 :: acc))
  else if c =? 98 then Some ([], LStr (8 :: acc))
  else if c =? 102 then Some ([], LStr (12 :: acc))
  else if c =? 110 then Some ([], LStr (10 :: acc))
  else if c =? 114 then Some ([], LStr (13 :: acc))
  else if c =? 116 then Some ([], LStr (9 :: acc))
  else None.

(** A complete \uXXXX of value [u] that pairs with nothing before it. *)
Definition fresh_escape (acc : str) (u : N) : mode :=
  if is_high u then LHigh acc u else LStr (u :: acc).

(** A complete \uXXXX of value [u]; [high] is the high surrogate whose escape
    stands directly before it, if any.  A high surrogate that is not followed
    by a low one stays in the string as it is. *)
Definition end_escape (acc : str) (high : option N) (u : N) : mode :=
  match high with
  | Some h =>
    if is_low u then LStr (join_surrogates h u :: acc)
    else fresh_escape (h :: acc) u
  | None => fresh_escape acc u
  end.

(** A character that does not continue a number ends it. *)
Definition end_number (st : num_state) (acc : str) (c : N)
  : option (list token * mode) :=
  match number_token st acc, top_char c with
  | Some t, Some (ts, m) => Some (t :: ts, m)
  | _, _ => None
  end.

Definition num_char (st : num_state) (acc : str) (c : N)
  : option (list token * mode) :=
  let is_e := (c =? 101) || (c =? 69) in
  match st with
  | NMinus =>
    if c =? 48 then Some ([], LNum NZero (c :: acc))
    else if is_digit c then Some ([], LNum NInt (c :: acc))
    else if c =? 73
    then Some ([], LWord (lit "nfinity") (VFloat (lit "-Infinity")))
    else None
  | NZero =>
    if c =? 46 then Some ([], LNum NDot (c :: acc))
    else if is_e then Some ([], LNum NExp (c :: acc))
    else end_number st acc c
  | NInt =>
    if is_digit c then Some ([], LNum NInt (c :: acc))
    else if c =? 46 then Some ([], LNum NDot (c :: acc))
    else if is_e then Some ([], LNum NExp (c :: acc))
    else end_number st acc c
  | NDot =>
    if is_digit c then Some ([], LNum NFrac (c :: acc)) else None
  | NFrac =>
    if is_digit c then Some ([], LNum NFrac (c :: acc))
    else if is_e then Some ([], LNum NExp (c :: acc))
    else end_number st acc c
  | NExp =>
    if (c =? 43) || (c =? 45) then Some ([], LNum NExpSign (c :: acc))
    else if is_digit c then Some ([], LNum NExpDigits (c :: acc))
    else None
  | NExpSign =>
    if is_digit c then Some ([], LNum NExpDigits (c :: acc)) else None
  | NExpDigits =>
    if is_digit c then Some ([], LNum NExpDigits (c :: acc))
    else end_number st acc c
  end.

Definition lex_step (m : mode) (c : N) : option (list token * mode) :=
  match m with
  | LTop => top_char c
  | LWord rest v =>
    match rest with
    | [] => None
    | e :: rest' =>
      if c =? e
      then match rest' with
           | [] => Some ([TAtom v], LTop)
           | _ => Some ([], LWord rest' v)
           end
      else None
    end
  | LStr acc => str_char acc c
  | LEsc acc => esc_char acc c
  | LHex acc high k u =>
    match hex_digit c with
    | None => None
    | Some d =>
      match k with
      | O => Some ([], end_escape acc high (u * 16 + d))
      | S k' => Some ([], LHex acc high k' (u * 16 + d))
      end
    end
  | LHigh acc h =>
    if c =? 92 then Some ([], LHighEsc acc h) else str_char (h :: acc) c
  | LHighEsc acc h =>
    if c =? 117 then Some ([], LHex acc (Some h) 3 0)
    else esc_char (h :: acc) c
  | LNum st acc => num_char st acc c
  end.

(** At the end of the text only a number may still be open. *)
Definition lex_end (m : mode) : option (list token) :=
  match m with
  | LTop => Some []
  | LNum st acc => option_map (fun t => [t]) (number_token st acc)
  | _ => None
  end.

Fixpoint lex (m : mode) (s : str) : option (list token) :=
  match s with
  | [] => lex_end m
  | c :: s' =>
    match lex_step m c with
    | None => None
    | Some (ts, m') => option_map (app ts) (lex m' s')
    end
  end.

(** The containers that are open around the place being parsed. *)
Inductive frame :=
| FList (items : list value)                      (* reversed *)
| FDict (d : list (str * value)) (k : str).        (* the key awaits its value *)

Inductive pstate :=
| PValue (stk : list frame)                        (* a value must start *)
| PListStart (stk : list frame)                    (* directly after [ *)
| PAfterItem (items : list value) (stk : list frame)
| PDictStart (stk : list frame)                    (* directly after { *)
| PKey (d : list (str * value)) (stk : list frame) (* after a comma in a dict *)
| PColon (d : list (str * value)) (k : str) (stk : list frame)
| PAfterEntry (d : list (str * value)) (stk : list frame)
| PDone (v : value).

(** A finished value goes to the innermost open container. *)
Definition deliver (v : value) (stk : list frame) : pstate :=
  match stk with
  | [] => PDone v
  | FList items :: stk' => PAfterItem (v :: items) stk'
  | FDict d k :: stk' => PAfterEntry (dict_setitem k v d) stk'
  end.

Definition value_start (stk : list frame) (t : token) : option pstate :=
  match t with
  | TAtom v => Some (deliver v stk)
  | TLBracket => Some (PListStart stk)
  | TLBrace => Some (PDictStart stk)
  | _ => None
  end.

Definition parse_step (p : pstate) (t : token) : option pstate :=
  match p with
  | PValue stk => value_start stk t
  | PListStart stk =>
    match t with
    | TRBracket => Some (deliver (VList []) stk)
    | _ => value_start (FList [] :: stk) t
    end
  | PAfterItem items stk =>
    match t with
    | TComma => Some (PValue (FList items :: stk))
    | TRBracket => Some (deliver (VList (rev items)) stk)
    | _ => None
    end
  | PDictStart stk =>
    match t with
    | TRBrace => Some (deliver (VDict []) stk)
    | TAtom (VStr k) => Some (PColon [] k stk)
    | _ => None
    end
  | PKey d stk =>
    match t with
    | TAtom (VStr k) => Some (PColon d k stk)
    | _ => None
    end
  | PColon d k stk =>
    match t with
    | TColon => Some (PValue (FDict d k :: stk))
    | _ => None
    end
  | PAfterEntry d stk =>
    match t with
    | TComma => Some (PKey d stk)
    | TRBrace => Some (deliver (VDict d) stk)
    | _ => None
    end
  | PDone _ => None
  end.

Fixpoint parse (p : pstate) (ts : list token) : option pstate :=
  match ts with
  | [] => Some p
  | t :: ts' =>
    match parse_step p t with
    | None => None
    | Some p' => parse p' ts'
    end
  end.

Definition loads (s : str) : result value :=
  match lex LTop s with
  | None => Raise JSONDecodeError
  | Some ts =>
    match parse (PValue []) ts with
    | Some (PDone v) => Return v
    | _ => Raise JSONDecodeError
    end
  end.

End Json.

(** ** The response object

    A [requests.Response] obtained with [stream=True]: the lines its
    [iter_lines()] has still to yield, and what the connection does on
    [close()].  [close_calls] counts the calls of [close()] made on it. *)

Record Conn := mkConn {
  unread : list bytes;
  close_raises : option exn;
  close_calls : nat
}.

Definition set_unread (ls : list bytes) (c : Conn) : Conn :=
  {| unread := ls; close_raises := close_raises c; close_calls := close_calls c |}.

(** A response as [requests.post] hands it over: nothing read, never closed. *)
Definition fresh_response (lines : list bytes) (on_close : option exn) : Conn :=
  {| unread := lines; close_raises := on_close; close_calls := 0 |}.

(** Computations on the response object: the object's state is threaded, and
    survives an exception. *)
Definition St (A : Type) : Type := Conn -> result A * Conn.

Definition ret {A} (a : A) : St A := fun c => (Return a, c).

Definition raise {A} (e : exn) : St A := fun c => (Raise e, c).

Definition bind {A B} (m : St A) (k : A -> St B) : St B :=
  fun c =>
    match m c with
    | (Return a, c') => k a c'
    | (Raise e, c') => (Raise e, c')
    end.

(** [try: m  except <caught>: pass] *)
Definition try_pass (m : St unit) (caught : exn -> bool) : St unit :=
  fun c =>
    match m c with
    | (Return tt, c') => (Return tt, c')
    | (Raise e, c') => if caught e then (Return tt, c') else (Raise e, c')
    end.

Notation "x <- m ;; k" := (bind m (fun x => k))
  (at level 61, m at next level, right associativity).
Notation "m ;;; k" := (bind m (fun _ => k))
  (at level 61, right associativity).

(** [response.close()] *)
Definition response_close : St unit :=
  fun c =>
    (match close_raises c with
     | Some e => Raise e
     | None => Return tt
     end,
     {| unread := unread c;
        close_raises := close_raises c;
        close_calls := S (close_calls c) |}).

(** ** [ResponseParser.parse_response] of [src/conversation/client.py] *)

(** The literal of lines 79-81. *)
Definition content_prefix : str := lit "{'type': 'content', 'content':".

(** What one turn of the loop of [parse_chunks] does with a line (lines
    77-83): nothing, a [yield], or an exception. *)
Inductive line_step :=
| Skip
| Emit (content : value)
| Fail (e : exn).

Definition handle_line (line : bytes) : line_step :=
  match line with
  | [] => Skip
  | _ :: _ =>
    match Utf8.decode line with
    | Raise e => Fail e
    | Return decoded_line =>
      if startswith decoded_line content_prefix then
        match rbind (Json.loads decoded_line)
                    (fun o => getitem o (lit "content")) with
        | Return content => Emit content
        | Raise e => Fail e
        end
      else Skip
    end
  end.

(** The generator [parse_chunks()].  Its frame holds nothing but the line
    iterator of the response, so the generator object is its status. *)
Inductive generator := Suspended | Finished.

(** What a call of [next()] ends in. *)
Inductive gen_event :=
| Yield (v : value)
| StopIteration
| Raised (e : exn).

(** The generator body runs from the current line to the next [yield], to
    the end of the lines, or to an exception. *)
Fixpoint resume (ls : list bytes) : gen_event * list bytes :=
  match ls with
  | [] => (StopIteration, [])
  | line :: rest =>
    match handle_line line with
    | Skip => resume rest
    | Emit v => (Yield v, rest)
    | Fail e => (Raised e, rest)
    end
  end.

(** [next(g)]: a generator that has returned or raised stays finished. *)
Definition gen_next (g : generator) (c : Conn) : gen_event * generator * Conn :=
  match g with
  | Finished => (StopIteration, Finished, c)
  | Suspended =>
    let (ev, rest) := resume (unread c) in
    (ev, match ev with Yield _ => Suspended | _ => Finished end,
     set_unread rest c)
  end.

(** [g.close()], and equally dropping the last reference to [g]:
    [parse_chunks] has no [finally] and no [with], so GeneratorExit unwinds
    the frame and this code does nothing to the response.  What finalisers
    of the HTTP library do once the line iterator is collected is outside
    the model: [close_calls] counts the calls this code makes. *)
Definition gen_close (g : generator) (c : Conn) : generator * Conn :=
  (Finished, c).

(** [list(g)]: call [next()] until the generator stops or raises.  Each
    [yield] has taken at least one line off the response, which bounds the
    number of calls. *)
Equations? exhaust (g : generator) (c : Conn)
  : result (list value) * (generator * Conn) by wf (length (unread c)) lt :=
  exhaust g c with inspect (gen_next g c) := {
    | exist _ (Yield v, g', c') _ =>
        let (r, s) := exhaust g' c' in
        (rbind r (fun items => Return (v :: items)), s)
    | exist _ (StopIteration, g', c') _ => (Return [], (g', c'))
    | exist _ (Raised e, g', c') _ => (Raise e, (g', c'))
  }.
Proof.
  destruct g; simpl in *; [|discriminate].
  destruct (resume (unread c)) as [ev rest] eqn:E.
  injection e as -> _ <-. simpl.
  clear exhaust. revert E. generalize (unread c) as ls.
  induction ls as [|line ls IH]; simpl; [discriminate|].
  destruct (handle_line line); intros H.
  - apply IH in H. lia.
  - injection H as _ <-. lia.
  - discriminate.
Qed.

(** [''.join(items)]: every item must be a [str]. *)
Fixpoint join_empty (items : list value) : result str :=
  match items with
  | [] => Return []
  | VStr s :: items' => rbind (join_empty items') (fun t => Return (s ++ t))
  | _ :: _ => Raise TypeError
  end.

(** [''.join(g)] for a generator [g]: the generator is run to its end first,
    and an exception it raises passes through. *)
Definition join_generator (g : generator) : St str :=
  fun c =>
    let (r, s) := exhaust g c in
    (rbind r join_empty, snd s).

(** What [parse_response] returns: a [str] or the generator. *)
Inductive parsed :=
| PStr (s : str)
| PGen (g : generator).

(** Calling [parse_chunks()] creates the generator and runs nothing. *)
Definition parse_chunks : St generator := ret Suspended.

Definition parse_response (chunked : bool) : St parsed :=
  if chunked then
    g <- parse_chunks ;; ret (PGen g)
  else
    g <- parse_chunks ;; s <- join_generator g ;; ret (PStr s).

(** ** [ResponseParser.parse_response] of [src/app.py] *)

Module App.

(** [full_response += content]: only a [str] can be added to a [str]. *)
Definition iadd (full_response : str) (content : value) : result str :=
  match content with
  | VStr s => Return (full_response ++ s)
  | _ => Raise TypeError
  end.

(** The loop of lines 67-72, from the lines still unread. *)
Fixpoint loop (full_response : str) (ls : list bytes)
  : result str * list bytes :=
  match ls with
  | [] => (Return full_response, [])
  | line :: rest =>
    match line with
    | [] => loop full_response rest
    | _ :: _ =>
      match Utf8.decode line with
      | Raise e => (Raise e, rest)
      | Return decoded_line =>
        if startswith decoded_line (lit "{'type': 'content', 'content':") then
          match rbind (Json.loads decoded_line)
                      (fun o => getitem o (lit "content")) with
          | Raise e => (Raise e, rest)
          | Return content =>
            match iadd full_response content with
            | Raise e => (Raise e, rest)
            | Return full_response' => loop full_response' rest
            end
          end
        else loop full_response rest
      end
    end
  end.

Definition parse_response : St str :=
  fun c =>
    let (r, rest) := loop [] (unread c) in
    (r, set_unread rest c).

End App.

(** ** The request and the client *)

Record Request := mkRequest {
  url : str;
  json : value;
  stream : bool;
  timeout : Z
}.

(** What the network does with a request: [requests.post] returns a response
    or raises. *)
Definition Network := Request -> result Conn.

(** [requests.post(url, json=data, stream=True, timeout=timeout)]: the
    request that goes out, and what comes back. *)
Definition requests_post (net : Network) (url : str) (json : value)
  (stream : bool) (timeout : Z) : list Request * result Conn :=
  let r := mkRequest url json stream timeout in ([r], net r).

(** The abstract [APIClient]: anything with a [send_request], which sends
    requests and returns a response or raises. *)
Class APIClient (C : Type) := {
  send_request : C -> value -> Network -> list Request * result Conn
}.

Record ConversationAPIClient := mkClient { base_url : str }.

Definition default_base_url : str := lit "http://127.0.0.1:8080".

Definition default_timeout : Z := 30.

(** [ConversationAPIClient.send_request] with the default [timeout]. *)
#[global] Instance ConversationAPIClient_send : APIClient ConversationAPIClient := {
  send_request self data net :=
    let url := base_url self ++ lit "/backend-api/v2/conversation" in
    requests_post net url data true default_timeout
}.

(** ** [ConversationAPI.enter_prompt] *)

(** The [data] dict of lines 134-141; [api_key] is a [str] or [None]. *)
Definition payload (prompt model : str) (web_search : bool) (provider : str)
  (auto_continue : bool) (api_key : option str) : value :=
  VDict [
    (lit "model", VStr model);
    (lit "web_search", VBool web_search);
    (lit "provider", VStr provider);
    (lit "messages",
     VList [VDict [(lit "role", VStr (lit "user"));
                   (lit "content", VStr prompt)]]);
    (lit "auto_continue", VBool auto_continue);
    (lit "api_key", match api_key with
                    | Some k => VStr k
                    | None => VNone
                    end)
  ].

(** The two [except] clauses of lines 149-152. *)
Definition swallowed (e : exn) : bool :=
  match e with
  | StreamConsumedError => true
  | _ => is_RequestException e
  end.

(** Lines 144-154: what [enter_prompt] does with the response. *)
Definition finish_call (chunked : bool) : St parsed :=
  parsed_response <- parse_response chunked ;;
  (if negb chunked then try_pass response_close swallowed else ret tt) ;;;
  ret parsed_response.

(** One call, as seen from outside: the requests that were sent, what the
    call returned or raised, and the response object as the call left it
    (none when the request itself failed). *)
Record Outcome := mkOutcome {
  sent : list Request;
  returned : result parsed;
  response : option Conn
}.

Definition enter_prompt {C} `{APIClient C} (client : C) (net : Network)
  (prompt model : str) (web_search : bool) (provider : str)
  (auto_continue : bool) (api_key : option str) (chunked : bool) : Outcome :=
  let data := payload prompt model web_search provider auto_continue api_key in
  match send_request client data net with
  | (reqs, Raise e) => mkOutcome reqs (Raise e) None
  | (reqs, Return response) =>
    let (r, response') := finish_call chunked response in
    mkOutcome reqs r (Some response')
  end.

(** [ConversationAPI()] uses a [ConversationAPIClient] on the default URL. *)
Definition default_client : ConversationAPIClient := mkClient default_base_url.

(** ** The caller of a streaming call

    What the owner of the generator can do with it. *)
Inductive gen_op := Next | Close.

Definition gen_apply (op : gen_op) (g : generator) (c : Conn)
  : option gen_event * generator * Conn :=
  match op with
  | Next => let '(ev, g', c') := gen_next g c in (Some ev, g', c')
  | Close => let (g', c') := gen_close g c in (None, g', c')
  end.

(** A sequence of operations, with the events the [next()] calls end in. *)
Fixpoint gen_run (ops : list gen_op) (g : generator) (c : Conn)
  : list gen_event * generator * Conn :=
  match ops with
  | [] => ([], g, c)
  | op :: ops' =>
    let '(ev, g', c') := gen_apply op g c in
    let '(evs, g'', c'') := gen_run ops' g' c' in
    (match ev with Some e => e :: evs | None => evs end, g'', c'')
  end.

(** ** Streams and what the parser makes of their lines *)

(** [collect ls] is the whole run of the generator over the lines [ls], by
    recursion on the lines: the values yielded, or the exception that ends
    the run, and the lines left unread. *)
Fixpoint collect (ls : list bytes) : result (list value) * list bytes :=
  match ls with
  | [] => (Return [], [])
  | line :: rest =>
    match handle_line line with
    | Skip => collect rest
    | Emit v =>
      let (r, u) := collect rest in
      (rbind r (fun items => Return (v :: items)), u)
    | Fail e => (Raise e, rest)
    end
  end.

(** A well-formed content event carrying the fragment [f]: a line of UTF-8
    text that begins with the prefix the parser looks for and is a JSON
    object whose ['content'] is the string [f]. *)
Definition content_event (line : bytes) (f : str) : Prop :=
  exists text o,
    Utf8.decode line = Return text /\
    startswith text content_prefix = true /\
    Json.loads text = Return o /\
    getitem o (lit "content") = Return (VStr f).

(** A line the parser passes over: an empty line, or UTF-8 text that does
    not begin with the prefix. *)
Definition ignored_line (line : bytes) : Prop :=
  line = [] \/
  exists text,
    Utf8.decode line = Return text /\
    startswith text content_prefix = false.

(** [well_formed ls fs]: the stream [ls] consists of content events carrying
    the fragments [fs], in this order, and of lines that are passed over. *)
Inductive well_formed : list bytes -> list str -> Prop :=
| wf_end : well_formed [] []
| wf_ignored line ls fs :
    ignored_line line -> well_formed ls fs -> well_formed (line :: ls) fs
| wf_content line f ls fs :
    content_event line f -> well_formed ls fs ->
    well_formed (line :: ls) (f :: fs).

(** A malformed line: not UTF-8 text, or text that is not JSON. *)
Definition malformed (line : bytes) : Prop :=
  forall text, Utf8.decode line = Return text ->
               Json.loads text = Raise JSONDecodeError.

(** [inserted P a b]: the stream [b] is the stream [a] with lines that
    satisfy [P] inserted at any places. *)
Inductive inserted (P : bytes -> Prop) : list bytes -> list bytes -> Prop :=
| inserted_end : inserted P [] []
| inserted_same line a b :
    inserted P a b -> inserted P (line :: a) (line :: b)
| inserted_more line a b :
    P line -> inserted P a b -> inserted P a (line :: b).

(** What the caller gets back, the exception forgotten. *)
Definition value_of {A} (r : result A) : option A :=
  match r with
  | Return a => Some a
  | Raise _ => None
  end.

(** [n] calls of [next()]. *)
Definition nexts (n : nat) : list gen_op := repeat Next n.

(** The events of [n] calls of [next()] on a new generator over the lines
    [ls]. *)
Definition stream_events (n : nat) (ls : list bytes) : list gen_event :=
  fst (fst (gen_run (nexts n) Suspended (fresh_response ls None))).

(** ** Streams used as examples *)

(** The three lines of the greeting scenario as a server that separates
    with [", "] and [": "] writes them (the default of [json.dumps]). *)
Definition greeting_stream : list bytes :=
  [ blit "{'type': 'content', 'content': 'Hi'}";
    blit "{'type': 'status', 'content': 'ignored'}";
    blit "{'type': 'content', 'content': ' there'}" ].

(** The same three lines written without spaces after the colons and
    commas. *)
Definition compact_greeting_stream : list bytes :=
  [ blit "{'type':'content','content':'Hi'}";
    blit "{'type':'status','content':'ignored'}";
    blit "{'type':'content','content':' there'}" ].

(** A line that begins with the prefix and breaks off there. *)
Definition truncated_event : bytes := blit "{'type': 'content', 'content':".

(** A content event whose content is a number. *)
Definition number_event : bytes := blit "{'type': 'content', 'content': 5}".

Definition hi_event : bytes := blit "{'type': 'content', 'content': 'Hi'}".

(** The request [ConversationAPIClient(base).send_request(data)] makes. *)
Definition conversation_request (base : str) (data : value) : Request :=
  {| url := base ++ lit "/backend-api/v2/conversation";
     json := data;
     stream := true;
     timeout := 30 |}.

(** ** Proof tools

    [content_line] proves that a concrete line is a content event and
    [ignored_text] that a concrete line of text is passed over, by running
    the decoder, the prefix test and the JSON model on it. *)

Ltac content_line :=
  eexists; eexists;
  split; [vm_compute; reflexivity|];
  split; [vm_compute; reflexivity|];
  split; vm_compute; reflexivity.

Ltac ignored_text :=
  right; eexists; split; vm_compute; reflexivity.

(** ** What a prefixed line holds

    The tokens of the prefix and the invariant of the JSON parser behind the
    fact that the subscript [['content']] of line 82 cannot fail. *)

(** The tokens the lexer makes of the prefix. *)
Definition prefix_tokens : list Json.token :=
  [ Json.TLBrace; Json.TAtom (VStr (lit "type")); Json.TColon;
    Json.TAtom (VStr (lit "content")); Json.TComma;
    Json.TAtom (VStr (lit "content")); Json.TColon ].

(** The dict has the key ['content']. *)
Definition has_content (d : list (str * value)) : Prop :=
  dict_lookup (lit "content") d <> None.

(** The outermost open container is a dict that has the key ['content'] or
    is about to store under it. *)
Fixpoint bottom_ok (stk : list Json.frame) : Prop :=
  match stk with
  | [] => False
  | [Json.FDict d k] => has_content d \/ k = lit "content"
  | [Json.FList _] => False
  | _ :: stk' => bottom_ok stk'
  end.

(** The value being parsed is a dict with the key ['content']. *)
Definition rooted (p : Json.pstate) : Prop :=
  match p with
  | Json.PValue stk | Json.PListStart stk | Json.PDictStart stk
  | Json.PAfterItem _ stk => bottom_ok stk
  | Json.PKey d stk | Json.PColon d _ stk | Json.PAfterEntry d stk =>
    match stk with
    | [] => has_content d
    | _ => bottom_ok stk
    end
  | Json.PDone v => exists d, v = VDict d /\ has_content d
  end.

(** [raises_on line e]: one of the two library calls of the loop body
    raises [e] on the line, [line.decode('utf-8')] or, on text that begins
    with the prefix, [json.loads(decoded_line)]. *)
Definition raises_on (line : bytes) (e : exn) : Prop :=
  Utf8.decode line = Raise e \/
  exists text,
    Utf8.decode line = Return text /\
    startswith text content_prefix = true /\
    Json.loads text = Raise e.

(** [carries line v]: the line is one the parser takes as a content event,
    and [v] is the value under its key ['content'], a string or not. *)
Definition carries (line : bytes) (v : value) : Prop :=
  exists text o,
    Utf8.decode line = Return text /\
    startswith text content_prefix = true /\
    Json.loads text = Return o /\
    getitem o (lit "content") = Return v.

Definition is_str (v : value) : bool :=
  match v with
  | VStr _ => true
  | _ => false
  end.

(** The text of a fragment, empty for a value that is not a string. *)
Definition text_of (v : value) : str :=
  match v with
  | VStr s => s
  | _ => []
  end.

(** ** [print]

    What a call of [print] does is up to [sys.stdout]: it writes the text of
    its argument, or it raises, UnicodeEncodeError when the encoding of
    [sys.stdout] has no bytes for a character of the text, an OSError when
    the write fails.  A console says what the [n]-th call of [print] of a run
    raises for the object it is given, if it raises. *)
Definition Console := nat -> value -> option exn.

(** The code points U+D800 to U+DFFF, for which UTF-8 has no bytes. *)
Definition is_surrogate (c : N) : bool := ((0xD800 <=? c) && (c <=? 0xDFFF))%N.

(** A console that encodes with strict UTF-8 and whose writes succeed, the
    usual [sys.stdout]: [print] raises on a string that holds a surrogate.
    An object that is not a string is written as its [repr], in which a
    surrogate is escaped. *)
Definition utf8_console : Console :=
  fun _ v =>
    if existsb is_surrogate (text_of v) then Some UnicodeEncodeError else None.

(** A content event whose content is a lone surrogate, which [json.loads]
    accepts. *)
Definition surrogate_event : bytes :=
  blit "{'type': 'content', 'content': '\ud800'}".

(** ** [src/app.py]: the call and the prompt loop

    [src/app.py] has its own copies of [APIClient], [ConversationAPIClient]
    and of the [data] dict, word for word those of
    [src/conversation/client.py]; the definitions above stand for both. *)

Module AppAPI.

Record Outcome := mkOutcome {
  sent : list Request;
  returned : result str;
  response : option Conn
}.

(** Lines 118-127: parse, then close under the two [except] clauses. *)
Definition finish_call : St str :=
  full_response <- App.parse_response ;;
  try_pass response_close swallowed ;;;
  ret full_response.

Definition enter_prompt {C} `{APIClient C} (client : C) (net : Network)
  (prompt model : str) (web_search : bool) (provider : str)
  (auto_continue : bool) (api_key : option str) : Outcome :=
  let data := payload prompt model web_search provider auto_continue api_key in
  match send_request client data net with
  | (reqs, Raise e) => mkOutcome reqs (Raise e) None
  | (reqs, Return response) =>
    let (r, response') := finish_call response in
    mkOutcome reqs r (Some response')
  end.

(** What the prompt loop writes: the prompt of [input()], and the results
    its calls of [print] have written. *)
Inductive out_event :=
| Asked
| Printed (result : str).

(** How the loop ends: by [break], by EOFError from [input()] when the
    input has no further line, or by an exception of a call of
    [enter_prompt] or of [print]. *)
Inductive ending :=
| Quit
| EndOfInput
| Aborted (e : exn).

Record Session := mkSession {
  requests : list Request;
  output : list out_event;
  responses : list (option Conn);
  ended : ending
}.

Section Loop.

(** [str.lower], a function of the Unicode tables of Python. *)
Variable lower : str -> str.

(** The network as call number [k] finds it. *)
Variable net : nat -> Network.

(** The console; [print] number [k] prints the result of call number [k]. *)
Variable console : Console.

(** [api.enter_prompt(prompt)] on the module's [api = ConversationAPI()]. *)
Definition ask (k : nat) (prompt : str) : Outcome :=
  enter_prompt default_client (net k) prompt [] false [] true None.

(** [ask_question()] (lines 133-142) from call number [k] on, over the lines
    the standard input still holds. *)
Fixpoint ask_question_from (k : nat) (stdin : list str) : Session :=
  match stdin with
  | [] => mkSession [] [Asked] [] EndOfInput
  | prompt :: rest =>
    if str_eqb (lower prompt) (lit "quit") then mkSession [] [Asked] [] Quit
    else
      let o := ask k prompt in
      match returned o with
      | Raise e => mkSession (sent o) [Asked] [response o] (Aborted e)
      | Return result =>
        match console k (VStr result) with
        | Some e => mkSession (sent o) [Asked] [response o] (Aborted e)
        | None =>
          let s := ask_question_from (S k) rest in
          mkSession (sent o ++ requests s)
                    (Asked :: Printed result :: output s)
                    (response o :: responses s)
                    (ended s)
        end
      end
  end.

Definition ask_question (stdin : list str) : Session :=
  ask_question_from 0 stdin.

End Loop.

(** The results printed, in order. *)
Fixpoint printed (out : list out_event) : list str :=
  match out with
  | [] => []
  | Asked :: out' => printed out'
  | Printed s :: out' => s :: printed out'
  end.

End AppAPI.

(** [str.lower] on the letters A-Z, which is what it does to ASCII text. *)
Definition ascii_lower (s : str) : str :=
  map (fun c => if ((65 <=? c) && (c <=? 90))%N then (c + 32)%N else c) s.

(** The request of a call that leaves every parameter but the prompt at its
    default. *)
Definition default_request (prompt : str) : Request :=
  conversation_request default_base_url
    (payload prompt [] false [] true None).

(** ** [src/example.py] *)

Module Script.

Definition PROMPT : str := lit "Gimme ten programming languages name.".

(** [for chunk in g: print(chunk, end='', flush=True)], from [print] number
    [n] on: the chunks printed, the exception that ended the loop if one
    did, whether of [next()] or of [print], and the generator and the
    response afterwards. *)
Equations? print_chunks (console : Console) (n : nat) (g : generator)
  (c : Conn) : list value * option exn * (generator * Conn)
  by wf (length (unread c)) lt :=
  print_chunks console n g c with inspect (gen_next g c) := {
    | exist _ (Yield chunk, g', c') _ =>
        match console n chunk with
        | Some e => ([], Some e, (g', c'))
        | None =>
          let '(chunks, e, s) := print_chunks console (S n) g' c' in
          (chunk :: chunks, e, s)
        end
    | exist _ (StopIteration, g', c') _ => ([], None, (g', c'))
    | exist _ (Raised e, g', c') _ => ([], Some e, (g', c'))
  }.
Proof.
  destruct g; simpl in *; [|discriminate].
  destruct (resume (unread c)) as [ev rest] eqn:E.
  injection e as -> _ <-. simpl.
  clear print_chunks. revert E. generalize (unread c) as ls.
  induction ls as [|line ls IH]; simpl; [discriminate|].
  destruct (handle_line line); intros H.
  - apply IH in H. lia.
  - injection H as _ <-. lia.
  - discriminate.
Qed.

(** What the script prints: the arguments of the [print] calls that have
    written, with their [end], in order. *)
Definition newline : str := [10%N].

(** Lines 16-21: the branch on [isinstance(result, Generator)]. *)
Definition show (console : Console) (result : parsed) (c : Conn)
  : list (value * str) * option exn * Conn :=
  match result with
  | PGen g =>
    let '(chunks, e, s) := print_chunks console 0 g c in
    (map (fun chunk => (chunk, [])) chunks, e, snd s)
  | PStr s =>
    match console 0 (VStr s) with
    | Some e => ([], Some e, c)
    | None => ([(VStr s, newline)], None, c)
    end
  end.

(** The whole script: what it prints and the exception it ends in, if any.
    A call that returns has a response, so the second case never arises. *)
Definition main (console : Console) (net : Network)
  : list (value * str) * option exn :=
  let o := enter_prompt default_client net PROMPT [] false [] true None false in
  match returned o, response o with
  | Return result, Some c => fst (show console result c)
  | Return _, None => ([], None)
  | Raise e, _ => ([], Some e)
  end.

(** The text a sequence of [print] calls writes, when every argument is a
    string. *)
Definition written (prints : list (value * str)) : str :=
  concat (map (fun p => text_of (fst p) ++ snd p) prints).

End Script.

(** [trace ls] is the run of a loop over the generator, by recursion on the
    lines: the values yielded, the exception that ended the run if one did,
    and the lines left unread. *)
Fixpoint trace (ls : list bytes) : list value * option exn * list bytes :=
  match ls with
  | [] => ([], None, [])
  | line :: rest =>
    match handle_line line with
    | Skip => trace rest
    | Emit v => let '(vs, e, u) := trace rest in (v :: vs, e, u)
    | Fail e => ([], Some e, rest)
    end
  end.

(** The lexer run over a piece of text that is followed by more: the tokens
    completed, and the mode in which the rest is met. *)
Fixpoint lex_run (m : Json.mode) (s : str)
  : option (list Json.token * Json.mode) :=
  match s with
  | [] => Some ([], m)
  | c :: s' =>
    match Json.lex_step m c with
    | None => None
    | Some (ts, m') =>
      match lex_run m' s' with
      | None => None
      | Some (ts', m'') => Some (ts ++ ts', m'')
      end
    end
  end.

(** * Properties *)

(** ** The library models on concrete inputs *)

Example decode_ascii :
  Utf8.decode (blit "{'a': 1}") = Return (lit "{'a': 1}").
Proof. reflexivity. Qed.

Example decode_multibyte :
  Utf8.decode [xc3; xa9; xe2; x82; xac; xf0; x9f; x98; x80] =
  Return [233; 8364; 128512]%N.
Proof. reflexivity. Qed.

Example decode_rejects :
  Utf8.decode [xff] = Raise UnicodeDecodeError /\
  Utf8.decode [xc0; x80] = Raise UnicodeDecodeError /\
  Utf8.decode [xed; xa0; x80] = Raise UnicodeDecodeError /\
  Utf8.decode [xe2; x82] = Raise UnicodeDecodeError /\
  Utf8.decode [xf4; x90; x80; x80] = Raise UnicodeDecodeError.
Proof. repeat split. Qed.

Example loads_event :
  Json.loads (lit "{'type': 'content', 'content': 'Hi'}") =
  Return (VDict [(lit "type", VStr (lit "content"));
                 (lit "content", VStr (lit "Hi"))]).
Proof. reflexivity. Qed.

Example loads_values :
  Json.loads (lit " [1, -20, 0, true, false, null, [], {}, 'a' ] ") =
  Return (VList [VInt 1; VInt (-20); VInt 0; VBool true; VBool false; VNone;
                 VList []; VDict []; VStr (lit "a")]) /\
  Json.loads (lit "[1.5, 2e3, -0.5E-2, NaN, Infinity, -Infinity]") =
  Return (VList [VFloat (lit "1.5"); VFloat (lit "2e3");
                 VFloat (lit "-0.5E-2"); VFloat (lit "NaN");
                 VFloat (lit "Infinity"); VFloat (lit "-Infinity")]).
Proof. split; reflexivity. Qed.

Example loads_last_key_wins :
  Json.loads (lit "{'a': 1, 'b': 2, 'a': 3}") =
  Return (VDict [(lit "a", VInt 3); (lit "b", VInt 2)]).
Proof. reflexivity. Qed.

Example loads_escapes :
  Json.loads (lit "'a\n\t\/\\\u00e9\ud83d\ude00\ud83dx'") =
  Return (VStr [97; 10; 9; 47; 92; 233; 128512; 55357; 120]%N).
Proof. reflexivity. Qed.

Example loads_rejects :
  Json.loads (lit "") = Raise JSONDecodeError /\
  Json.loads (lit "{'a': 1,}") = Raise JSONDecodeError /\
  Json.loads (lit "[1 2]") = Raise JSONDecodeError /\
  Json.loads (lit "01") = Raise JSONDecodeError /\
  Json.loads (lit "1.") = Raise JSONDecodeError /\
  Json.loads (lit "{'a': 1} x") = Raise JSONDecodeError /\
  Json.loads (lit "'\x'") = Raise JSONDecodeError /\
  Json.loads (lit "{a: 1}") = Raise JSONDecodeError /\
  Json.loads (lit "{'type': 'content', 'content':") = Raise JSONDecodeError.
Proof. repeat split. Qed.

(** ** The generator and its exhaustion *)

Lemma content_prefix_codes :
  content_prefix =
  [123; 34; 116; 121; 112; 101; 34; 58; 32; 34; 99; 111; 110; 116; 101; 110;
   116; 34; 44; 32; 34; 99; 111; 110; 116; 101; 110; 116; 34; 58]%N.
Proof. reflexivity. Qed.

Lemma exhaust_next (g : generator) (c : Conn) :
  exhaust g c =
  match gen_next g c with
  | (Yield v, g', c') =>
    let (r, s) := exhaust g' c' in
    (rbind r (fun items => Return (v :: items)), s)
  | (StopIteration, g', c') => (Return [], (g', c'))
  | (Raised e, g', c') => (Raise e, (g', c'))
  end.
Proof.
  funelim (exhaust g c);
    match goal with E : gen_next _ _ = _ |- _ => rewrite E end; reflexivity.
Qed.

(** A [yield] is reached only by taking a line off the response. *)
Lemma resume_yield_shorter (ls rest : list bytes) (v : value) :
  resume ls = (Yield v, rest) -> length rest < length ls.
Proof.
  induction ls as [|line ls IH]; simpl; [discriminate|].
  destruct (handle_line line); intros H.
  - apply IH in H. lia.
  - injection H as _ <-. lia.
  - discriminate.
Qed.

Lemma resume_stop (ls rest : list bytes) :
  resume ls = (StopIteration, rest) -> rest = [].
Proof.
  induction ls as [|line ls IH]; simpl.
  - now intros [= <-].
  - destruct (handle_line line); auto; discriminate.
Qed.

Lemma collect_resume (ls : list bytes) :
  collect ls =
  match resume ls with
  | (Yield v, rest) =>
    let (r, u) := collect rest in
    (rbind r (fun items => Return (v :: items)), u)
  | (StopIteration, _) => (Return [], [])
  | (Raised e, rest) => (Raise e, rest)
  end.
Proof.
  induction ls as [|line ls IH]; simpl; [reflexivity|].
  destruct (handle_line line); auto.
Qed.

(** Exhausting the generator is the run [collect] describes; the generator
    is finished afterwards. *)
Lemma exhaust_collect (g : generator) (c : Conn) :
  exhaust g c =
  match g with
  | Suspended =>
    let (r, rest) := collect (unread c) in (r, (Finished, set_unread rest c))
  | Finished => (Return [], (Finished, c))
  end.
Proof.
  remember (length (unread c)) as n eqn:Hn. revert g c Hn.
  induction n as [n IH] using lt_wf_ind. intros g c Hn.
  rewrite exhaust_next. destruct g; [|reflexivity].
  simpl. rewrite collect_resume.
  destruct (resume (unread c)) as [[v| |e] rest] eqn:E.
  - rewrite (IH (length rest)) with (g := Suspended) (c := set_unread rest c).
    + simpl. destruct (collect rest) as [r u]. reflexivity.
    + subst n. eapply resume_yield_shorter; eassumption.
    + reflexivity.
  - apply resume_stop in E. subst rest. reflexivity.
  - reflexivity.
Qed.

(** Aggregate mode in one equation: the fragments are collected, then
    joined; the response is left where the run ended. *)
Lemma parse_response_aggregate (c : Conn) :
  parse_response false c =
  (rbind (rbind (fst (collect (unread c))) join_empty)
         (fun s => Return (PStr s)),
   set_unread (snd (collect (unread c))) c).
Proof.
  unfold parse_response, parse_chunks, join_generator, bind, ret.
  rewrite exhaust_collect.
  destruct (collect (unread c)) as [r rest]; simpl.
  destruct (rbind r join_empty); reflexivity.
Qed.

(** Streaming mode returns the new generator and reads nothing. *)
Lemma parse_response_chunked (c : Conn) :
  parse_response true c = (Return (PGen Suspended), c).
Proof. reflexivity. Qed.

Lemma join_empty_strs (fs : list str) :
  join_empty (map VStr fs) = Return (concat fs).
Proof.
  induction fs as [|f fs IH]; simpl; [reflexivity|].
  now rewrite IH.
Qed.

(** ** Lines of a well-formed stream *)

Lemma handle_line_content (line : bytes) (f : str) :
  content_event line f -> handle_line line = Emit (VStr f).
Proof.
  intros (text & o & Hd & Hp & Hl & Hg).
  unfold handle_line. destruct line as [|b line].
  - simpl in Hd. injection Hd as <-. discriminate Hp.
  - rewrite Hd, Hp, Hl. simpl. now rewrite Hg.
Qed.

Lemma handle_line_ignored (line : bytes) :
  ignored_line line -> handle_line line = Skip.
Proof.
  intros [-> | (text & Hd & Hp)]; [reflexivity|].
  unfold handle_line. destruct line; [reflexivity|].
  now rewrite Hd, Hp.
Qed.

Lemma collect_well_formed (ls : list bytes) (fs : list str) :
  well_formed ls fs -> collect ls = (Return (map VStr fs), []).
Proof.
  induction 1 as [|line ls fs Hi _ IH|line f ls fs Hc _ IH]; simpl.
  - reflexivity.
  - now rewrite (handle_line_ignored Hi).
  - now rewrite (handle_line_content Hc), IH.
Qed.

Lemma gen_run_finished (n : nat) (c : Conn) :
  gen_run (nexts n) Finished c = (repeat StopIteration n, Finished, c).
Proof.
  induction n as [|n IH]; simpl; [reflexivity|].
  unfold nexts in IH. now rewrite IH.
Qed.

Lemma gen_next_ignored (line : bytes) (ls : list bytes) (cr : option exn)
  (cc : nat) :
  handle_line line = Skip ->
  gen_next Suspended (mkConn (line :: ls) cr cc) =
  gen_next Suspended (mkConn ls cr cc).
Proof. intros H. simpl. now rewrite H. Qed.

Lemma gen_next_emit (line : bytes) (v : value) (ls : list bytes)
  (cr : option exn) (cc : nat) :
  handle_line line = Emit v ->
  gen_next Suspended (mkConn (line :: ls) cr cc) =
  (Yield v, Suspended, mkConn ls cr cc).
Proof. intros H. simpl. now rewrite H. Qed.

Lemma gen_next_fail (line : bytes) (e : exn) (ls : list bytes)
  (cr : option exn) (cc : nat) :
  handle_line line = Fail e ->
  gen_next Suspended (mkConn (line :: ls) cr cc) =
  (Raised e, Finished, mkConn ls cr cc).
Proof. intros H. simpl. now rewrite H. Qed.

Lemma gen_run_next (n : nat) (g : generator) (c : Conn) :
  gen_run (nexts (S n)) g c =
  let '(ev, g', c') := gen_next g c in
  let '(evs, g'', c'') := gen_run (nexts n) g' c' in
  (ev :: evs, g'', c'').
Proof.
  simpl. destruct (gen_next g c) as [[ev g'] c']. reflexivity.
Qed.

(** The events of any number of [next()] calls on a well-formed stream: the
    fragments in order, then StopIteration for good. *)
Lemma gen_run_well_formed (ls : list bytes) (fs : list str) :
  well_formed ls fs ->
  forall (n : nat) (cr : option exn) (cc : nat),
    fst (fst (gen_run (nexts n) Suspended (mkConn ls cr cc))) =
    firstn n (map (fun f => Yield (VStr f)) fs)
    ++ repeat StopIteration (n - length fs).
Proof.
  induction 1 as [|line ls fs Hi _ IH|line f ls fs Hc _ IH];
    intros [|n] cr cc; try reflexivity.
  - rewrite gen_run_next. simpl gen_next. cbv iota beta.
    now rewrite gen_run_finished.
  - specialize (IH (S n) cr cc). rewrite gen_run_next in IH |- *.
    now rewrite (@gen_next_ignored line ls cr cc (handle_line_ignored Hi)).
  - rewrite gen_run_next,
      (@gen_next_emit line _ ls cr cc (handle_line_content Hc)).
    specialize (IH n cr cc).
    destruct (gen_run (nexts n) Suspended (mkConn ls cr cc)) as [[evs g] c'].
    simpl in *. now rewrite IH.
Qed.

(** Once more calls than fragments have been made the generator is finished
    and the response is read to its end. *)
Lemma gen_run_well_formed_end (ls : list bytes) (fs : list str) :
  well_formed ls fs ->
  forall (n : nat) (cr : option exn) (cc : nat),
    length fs < n ->
    snd (fst (gen_run (nexts n) Suspended (mkConn ls cr cc))) = Finished /\
    snd (gen_run (nexts n) Suspended (mkConn ls cr cc)) = mkConn [] cr cc.
Proof.
  induction 1 as [|line ls fs Hi _ IH|line f ls fs Hc _ IH];
    intros [|n] cr cc Hn; simpl in Hn; try lia.
  - rewrite gen_run_next. simpl gen_next. cbv iota beta.
    now rewrite gen_run_finished.
  - specialize (IH (S n) cr cc Hn). rewrite gen_run_next in IH |- *.
    now rewrite (@gen_next_ignored line ls cr cc (handle_line_ignored Hi)).
  - rewrite gen_run_next,
      (@gen_next_emit line _ ls cr cc (handle_line_content Hc)).
    assert (Hn' : length fs < n) by lia.
    specialize (IH n cr cc Hn').
    destruct (gen_run (nexts n) Suspended (mkConn ls cr cc)) as [[evs g] c'].
    exact IH.
Qed.

(** ** Aggregate mode on well-formed streams *)

Lemma greeting_stream_well_formed :
  well_formed greeting_stream [lit "Hi"; lit " there"].
Proof.
  apply wf_content; [content_line|].
  apply wf_ignored; [ignored_text|].
  apply wf_content; [content_line|].
  apply wf_end.
Defined.

(** C1. On a well-formed stream, whose lines are content events carrying the
    fragments [f1 .. fN] and lines the parser passes over, [parse_response]
    with [chunked=False] returns the string [f1 + ... + fN], and when it
    returns every line of the response has been read. *)
Theorem aggregate_returns_concatenation (c : Conn) (fs : list str) :
  well_formed (unread c) fs ->
  parse_response false c = (Return (PStr (concat fs)), set_unread [] c).
Proof.
  intros H.
  rewrite parse_response_aggregate, (collect_well_formed H). simpl.
  now rewrite join_empty_strs.
Qed.

Lemma aggregate_returns_concatenation_witness :
  well_formed (unread (fresh_response greeting_stream None))
              [lit "Hi"; lit " there"] /\
  parse_response false (fresh_response greeting_stream None) =
  (Return (PStr (lit "Hi there")), fresh_response [] None).
Proof.
  split; [exact greeting_stream_well_formed|].
  exact (aggregate_returns_concatenation
           (fresh_response greeting_stream None)
           greeting_stream_well_formed).
Defined.

(** ** Streaming mode on well-formed streams *)

(** C2. On a well-formed stream with the fragments [f1 .. fN], [N >= 0],
    [parse_response] with [chunked=True] returns a generator without reading
    anything; [n] calls of [next()] on it yield the first [n] of [f1 .. fN]
    in order and end in StopIteration from call [N + 1] on, and by then the
    generator is finished and the response is read to its end.  For [N = 0]
    the first call already ends in StopIteration. *)
Theorem streaming_yields_fragments (c : Conn) (fs : list str) (n : nat) :
  well_formed (unread c) fs ->
  parse_response true c = (Return (PGen Suspended), c) /\
  fst (fst (gen_run (nexts n) Suspended c)) =
    firstn n (map (fun f => Yield (VStr f)) fs)
    ++ repeat StopIteration (n - length fs) /\
  (length fs < n ->
   gen_run (nexts n) Suspended c =
   (map (fun f => Yield (VStr f)) fs ++ repeat StopIteration (n - length fs),
    Finished, set_unread [] c)).
Proof.
  intros H. destruct c as [ls cr cc]. simpl in H.
  split; [reflexivity|]. split.
  - now apply gen_run_well_formed.
  - intros Hn.
    pose proof (gen_run_well_formed H n cr cc) as He.
    destruct (gen_run_well_formed_end H cr cc Hn) as [Hg Hc].
    destruct (gen_run (nexts n) Suspended (mkConn ls cr cc)) as [[evs g] c'].
    simpl in *. subst.
    rewrite firstn_all2; [reflexivity|]. rewrite length_map. lia.
Qed.

Lemma streaming_yields_fragments_witness :
  well_formed (unread (fresh_response greeting_stream None))
              [lit "Hi"; lit " there"] /\
  gen_run (nexts 3) Suspended (fresh_response greeting_stream None) =
  ([Yield (VStr (lit "Hi")); Yield (VStr (lit " there")); StopIteration],
   Finished, fresh_response [] None).
Proof.
  split; [exact greeting_stream_well_formed|].
  refine (proj2 (proj2 (streaming_yields_fragments
                          (fresh_response greeting_stream None) 3
                          greeting_stream_well_formed)) _).
  simpl. lia.
Defined.

(** ** Lines that are passed over, and lines that are not *)

Lemma inserted_middle (P : bytes -> Prop) (before after : list bytes)
  (line : bytes) :
  P line -> inserted P (before ++ after) (before ++ line :: after).
Proof.
  intros HP. induction before as [|l before IH]; simpl.
  - apply inserted_more; [exact HP|].
    induction after; constructor; auto.
  - now apply inserted_same.
Qed.

Lemma well_formed_inserted (a b : list bytes) (fs : list str) :
  inserted ignored_line a b -> well_formed a fs -> well_formed b fs.
Proof.
  intros Hi. revert fs.
  induction Hi as [|line a b _ IH|line a b Hl _ IH]; intros fs Hw.
  - exact Hw.
  - inversion Hw; subst; [apply wf_ignored|apply wf_content]; auto.
  - apply wf_ignored; auto.
Qed.

(** Lines that are passed over change neither what a [next()] call ends in
    nor what follows it. *)
Lemma resume_inserted (a b : list bytes) :
  inserted ignored_line a b ->
  fst (resume a) = fst (resume b) /\
  inserted ignored_line (snd (resume a)) (snd (resume b)).
Proof.
  induction 1 as [|line a b Hi IH|line a b Hl _ IH]; simpl.
  - split; [reflexivity|constructor].
  - destruct (handle_line line); simpl; auto.
  - now rewrite (handle_line_ignored Hl).
Qed.

Lemma collect_inserted (a b : list bytes) :
  inserted ignored_line a b -> fst (collect a) = fst (collect b).
Proof.
  induction 1 as [|line a b Hi IH|line a b Hl _ IH]; simpl.
  - reflexivity.
  - destruct (handle_line line); simpl; auto.
    destruct (collect a) as [ra ua], (collect b) as [rb ub]. simpl in *.
    now subst.
  - now rewrite (handle_line_ignored Hl).
Qed.

Lemma gen_run_inserted (n : nat) :
  forall (a b : list bytes) (cr : option exn) (cc : nat),
    inserted ignored_line a b ->
    fst (fst (gen_run (nexts n) Suspended (mkConn a cr cc))) =
    fst (fst (gen_run (nexts n) Suspended (mkConn b cr cc))).
Proof.
  induction n as [|n IH]; intros a b cr cc Hi; [reflexivity|].
  rewrite !gen_run_next. simpl gen_next.
  destruct (resume_inserted Hi) as [Hev Hrest].
  destruct (resume a) as [eva ra], (resume b) as [evb rb]. simpl in *.
  subst evb. destruct eva as [v| |e]; cbv iota beta.
  - specialize (IH ra rb cr cc Hrest). unfold set_unread. simpl.
    destruct (gen_run (nexts n) Suspended (mkConn ra cr cc)) as [[e1 g1] c1].
    destruct (gen_run (nexts n) Suspended (mkConn rb cr cc)) as [[e2 g2] c2].
    simpl in *. now subst.
  - now rewrite !gen_run_finished.
  - now rewrite !gen_run_finished.
Qed.

(** A line on which the loop raises, after a well-formed beginning. *)
Lemma collect_fail (before after : list bytes) (fs : list str)
  (line : bytes) (e : exn) :
  well_formed before fs -> handle_line line = Fail e ->
  collect (before ++ line :: after) = (Raise e, after).
Proof.
  intros Hw Hf.
  induction Hw as [|l ls fs Hi _ IH|l f ls fs Hc _ IH]; simpl.
  - now rewrite Hf.
  - now rewrite (handle_line_ignored Hi).
  - now rewrite (handle_line_content Hc), IH.
Qed.

Lemma gen_run_fail (before after : list bytes) (fs : list str)
  (line : bytes) (e : exn) :
  well_formed before fs -> handle_line line = Fail e ->
  forall (k : nat) (cr : option exn) (cc : nat),
    gen_run (nexts (length fs + S k)) Suspended
            (mkConn (before ++ line :: after) cr cc) =
    (map (fun f => Yield (VStr f)) fs ++ Raised e :: repeat StopIteration k,
     Finished, mkConn after cr cc).
Proof.
  intros Hw Hf k cr cc.
  induction Hw as [|l ls fs Hi _ IH|l f ls fs Hc _ IH];
    cbn [length Nat.add app map].
  - rewrite gen_run_next, (@gen_next_fail line e after cr cc Hf).
    now rewrite gen_run_finished.
  - rewrite <- IH.
    replace (length fs + S k) with (S (length fs + k)) by lia.
    rewrite !gen_run_next.
    now rewrite (@gen_next_ignored l (ls ++ line :: after) cr cc
                   (handle_line_ignored Hi)).
  - rewrite gen_run_next.
    rewrite (@gen_next_emit l _ (ls ++ line :: after) cr cc
               (handle_line_content Hc)).
    now rewrite IH.
Qed.

(** A malformed line that is not passed over makes the loop raise. *)
Lemma malformed_not_ignored (line : bytes) :
  malformed line -> ~ ignored_line line ->
  exists e, (e = UnicodeDecodeError \/ e = JSONDecodeError) /\
            handle_line line = Fail e.
Proof.
  intros Hm Hn. unfold handle_line.
  destruct line as [|b line]; [exfalso; apply Hn; now left|].
  destruct (Utf8.decode (b :: line)) as [text|e] eqn:Hd.
  - destruct (startswith text content_prefix) eqn:Hp.
    + rewrite (Hm text Hd). simpl. eauto.
    + exfalso. apply Hn. right. now exists text.
  - exists e. split; [|reflexivity].
    unfold Utf8.decode in Hd.
    destruct (Utf8.scalars _); [discriminate|]. injection Hd as <-. now left.
Qed.

Lemma truncated_event_malformed : malformed truncated_event.
Proof.
  intros text H. vm_compute in H. injection H as <-. vm_compute. reflexivity.
Defined.

Lemma truncated_event_not_ignored : ~ ignored_line truncated_event.
Proof.
  intros [H | (text & Hd & Hp)]; [discriminate H|].
  vm_compute in Hd. injection Hd as <-. vm_compute in Hp. discriminate Hp.
Defined.

Lemma hi_event_well_formed : well_formed [hi_event] [lit "Hi"].
Proof.
  apply wf_content; [content_line|apply wf_end].
Defined.

(** C3, as the code has it.  A malformed line is skipped in both modes, and
    the lines after it are processed as if it were not there, when it is
    passed over: an empty line, or UTF-8 text that does not begin with the
    content-event prefix.  A malformed line that is not passed over (it is
    not UTF-8, or it begins with the prefix) makes the parse raise when it
    is reached after a well-formed beginning: aggregate mode raises to the
    caller and returns no string, streaming mode yields the fragments before
    the line, raises, and is finished; the lines after it stay unread. *)
Theorem malformed_line_skipped_or_raised (before after : list bytes)
  (line : bytes) (on_close : option exn) :
  malformed line ->
  (ignored_line line ->
   fst (parse_response false
          (fresh_response (before ++ line :: after) on_close)) =
   fst (parse_response false (fresh_response (before ++ after) on_close)) /\
   forall n,
     stream_events n (before ++ line :: after) =
     stream_events n (before ++ after)) /\
  (~ ignored_line line ->
   forall fs, well_formed before fs ->
   exists e,
     (e = UnicodeDecodeError \/ e = JSONDecodeError) /\
     parse_response false
       (fresh_response (before ++ line :: after) on_close) =
     (Raise e, fresh_response after on_close) /\
     forall k,
       gen_run (nexts (length fs + S k)) Suspended
               (fresh_response (before ++ line :: after) on_close) =
       (map (fun f => Yield (VStr f)) fs
        ++ Raised e :: repeat StopIteration k,
        Finished, fresh_response after on_close)).
Proof.
  intros Hm. split.
  - intros Hi.
    pose proof (@inserted_middle ignored_line before after line Hi) as Hins.
    split.
    + rewrite !parse_response_aggregate. simpl.
      now rewrite (collect_inserted Hins).
    + intros n. unfold stream_events, fresh_response. symmetry.
      now apply gen_run_inserted.
  - intros Hn fs Hw.
    destruct (malformed_not_ignored Hm Hn) as (e & He & Hf).
    exists e. split; [exact He|]. split.
    + rewrite parse_response_aggregate. simpl.
      now rewrite (@collect_fail before after fs line e Hw Hf).
    + intros k. now apply gen_run_fail.
Qed.

Lemma malformed_line_skipped_or_raised_witness :
  malformed truncated_event /\
  ~ ignored_line truncated_event /\
  well_formed [hi_event] [lit "Hi"] /\
  exists e,
    (e = UnicodeDecodeError \/ e = JSONDecodeError) /\
    parse_response false
      (fresh_response ([hi_event] ++ truncated_event :: [hi_event]) None) =
    (Raise e, fresh_response [hi_event] None) /\
    forall k,
      gen_run (nexts (length [lit "Hi"] + S k)) Suspended
              (fresh_response ([hi_event] ++ truncated_event :: [hi_event])
                              None) =
      (map (fun f => Yield (VStr f)) [lit "Hi"]
       ++ Raised e :: repeat StopIteration k,
       Finished, fresh_response [hi_event] None).
Proof.
  split; [exact truncated_event_malformed|].
  split; [exact truncated_event_not_ignored|].
  split; [exact hi_event_well_formed|].
  exact (proj2 (malformed_line_skipped_or_raised
                  [hi_event] [hi_event] None truncated_event_malformed)
               truncated_event_not_ignored [lit "Hi"] hi_event_well_formed).
Defined.

(** C3 as stated fails: a malformed line that begins with the content-event
    prefix makes both modes raise, and the content event after it is never
    processed.  The parser of [src/app.py] raises on it as well. *)
Lemma malformed_prefixed_line_aborts :
  malformed truncated_event /\
  parse_response false (fresh_response [truncated_event; hi_event] None) =
  (Raise JSONDecodeError, fresh_response [hi_event] None) /\
  gen_run (nexts 2) Suspended
          (fresh_response [truncated_event; hi_event] None) =
  ([Raised JSONDecodeError; StopIteration], Finished,
   fresh_response [hi_event] None) /\
  App.parse_response (fresh_response [truncated_event; hi_event] None) =
  (Raise JSONDecodeError, fresh_response [hi_event] None).
Proof.
  split; [exact truncated_event_malformed|].
  split; [rewrite parse_response_aggregate|split]; reflexivity.
Qed.

(** ** The greeting scenario *)

(** C4, as the code has it.  When the three lines are written with one space
    after each colon and comma, which is what the prefix of the parser
    matches, aggregate mode returns ["Hi there"] and streaming mode yields
    ["Hi"] and [" there"] and stops. *)
Theorem greeting_scenario :
  parse_response false (fresh_response greeting_stream None) =
  (Return (PStr (lit "Hi there")), fresh_response [] None) /\
  gen_run (nexts 3) Suspended (fresh_response greeting_stream None) =
  ([Yield (VStr (lit "Hi")); Yield (VStr (lit " there")); StopIteration],
   Finished, fresh_response [] None).
Proof.
  split.
  - rewrite parse_response_aggregate. reflexivity.
  - reflexivity.
Qed.

(** C4 as stated fails: written without the spaces none of the three lines
    begins with the prefix, so aggregate mode returns the empty string and
    streaming mode yields nothing. *)
Lemma compact_greeting_yields_nothing :
  parse_response false (fresh_response compact_greeting_stream None) =
  (Return (PStr []), fresh_response [] None) /\
  fst (parse_response false (fresh_response compact_greeting_stream None))
  <> Return (PStr (lit "Hi there")) /\
  gen_run (nexts 3) Suspended (fresh_response compact_greeting_stream None) =
  ([StopIteration; StopIteration; StopIteration], Finished,
   fresh_response [] None).
Proof.
  assert (H : parse_response false
                (fresh_response compact_greeting_stream None) =
              (Return (PStr []), fresh_response [] None)).
  { rewrite parse_response_aggregate. reflexivity. }
  split; [exact H|]. split; [|reflexivity].
  rewrite H. simpl. intros E. discriminate E.
Qed.

(** ** Order of the fragments *)

(** C5, as the code has it.  Lines that are passed over (empty lines and
    UTF-8 text that does not begin with the content-event prefix), inserted
    at any places of any stream, change neither what aggregate mode returns
    or raises nor the events of streaming mode; and when the stream they are
    inserted into is well formed with fragments [f1 .. fN], the result is
    still [f1 .. fN] in arrival order, nothing dropped, repeated or
    reordered. *)
Theorem ignored_lines_preserve_fragments (a b : list bytes)
  (on_close : option exn) :
  inserted ignored_line a b ->
  fst (parse_response false (fresh_response a on_close)) =
  fst (parse_response false (fresh_response b on_close)) /\
  (forall n, stream_events n a = stream_events n b) /\
  (forall fs, well_formed a fs ->
     fst (parse_response false (fresh_response b on_close)) =
     Return (PStr (concat fs)) /\
     forall n,
       stream_events n b =
       firstn n (map (fun f => Yield (VStr f)) fs)
       ++ repeat StopIteration (n - length fs)).
Proof.
  intros Hi. split; [|split].
  - rewrite !parse_response_aggregate. simpl.
    now rewrite (collect_inserted Hi).
  - intros n. now apply gen_run_inserted.
  - intros fs Hw. pose proof (well_formed_inserted Hi Hw) as Hb. split.
    + rewrite parse_response_aggregate. simpl.
      rewrite (collect_well_formed Hb). simpl. now rewrite join_empty_strs.
    + intros n. now apply gen_run_well_formed.
Qed.

Lemma status_line_ignored :
  ignored_line (blit "{'type': 'status', 'content': 'ignored'}").
Proof. ignored_text. Defined.

Lemma ignored_lines_preserve_fragments_witness :
  inserted ignored_line
    [hi_event]
    [ []; hi_event; blit "{'type': 'status', 'content': 'ignored'}" ] /\
  fst (parse_response false
         (fresh_response
            [ []; hi_event; blit "{'type': 'status', 'content': 'ignored'}" ]
            None)) =
  Return (PStr (concat [lit "Hi"])).
Proof.
  assert (H : inserted ignored_line
                [hi_event]
                [ []; hi_event;
                  blit "{'type': 'status', 'content': 'ignored'}" ]).
  { apply inserted_more; [now left|].
    apply inserted_same.
    apply inserted_more; [exact status_line_ignored|].
    apply inserted_end. }
  split; [exact H|].
  exact (proj1 (proj2 (proj2 (ignored_lines_preserve_fragments None H))
                      [lit "Hi"] hi_event_well_formed)).
Defined.

(** C5 as stated fails: a malformed line that begins with the prefix,
    inserted after a content event, turns the returned string into an
    exception and ends the streaming sequence with one. *)
Lemma inserted_malformed_line_changes_result :
  inserted malformed [hi_event] [hi_event; truncated_event] /\
  fst (parse_response false (fresh_response [hi_event] None)) =
  Return (PStr (lit "Hi")) /\
  fst (parse_response false
         (fresh_response [hi_event; truncated_event] None)) =
  Raise JSONDecodeError /\
  stream_events 2 [hi_event] = [Yield (VStr (lit "Hi")); StopIteration] /\
  stream_events 2 [hi_event; truncated_event] =
  [Yield (VStr (lit "Hi")); Raised JSONDecodeError].
Proof.
  split.
  - apply inserted_same. apply inserted_more.
    + exact truncated_event_malformed.
    + apply inserted_end.
  - repeat split; try reflexivity;
      rewrite parse_response_aggregate; reflexivity.
Qed.

(** ** The two aggregate parsers *)

Lemma app_loop_step (acc : str) (line : bytes) (rest : list bytes) :
  App.loop acc (line :: rest) =
  match handle_line line with
  | Skip => App.loop acc rest
  | Emit v =>
    match App.iadd acc v with
    | Return acc' => App.loop acc' rest
    | Raise e => (Raise e, rest)
    end
  | Fail e => (Raise e, rest)
  end.
Proof.
  unfold handle_line. simpl App.loop. fold content_prefix.
  destruct line as [|b line]; [reflexivity|].
  destruct (Utf8.decode (b :: line)) as [text|e]; [|reflexivity].
  destruct (startswith text content_prefix); [|reflexivity].
  destruct (rbind (Json.loads text) (fun o => getitem o (lit "content")));
    reflexivity.
Qed.

(** The loop of [src/app.py], started with [acc], returns [acc] followed by
    what joining the collected values gives, and raises when collecting or
    joining raises. *)
Lemma app_loop_collect (ls : list bytes) :
  forall acc : str,
    value_of (fst (App.loop acc ls)) =
    option_map (app acc) (value_of (rbind (fst (collect ls)) join_empty)).
Proof.
  induction ls as [|line ls IH]; intros acc.
  - simpl. now rewrite app_nil_r.
  - rewrite app_loop_step. simpl collect.
    destruct (handle_line line) as [|v|e]; [apply IH| |reflexivity].
    destruct (collect ls) as [r u] eqn:Ec. simpl fst in *.
    destruct v; simpl App.iadd; cbv iota beta;
      try (destruct r as [its|e0]; reflexivity).
    rewrite IH. destruct r as [its|e0]; [|reflexivity].
    simpl. destruct (join_empty its) as [t|e0]; [|reflexivity].
    simpl. now rewrite app_assoc.
Qed.

Lemma app_loop_returns (ls : list bytes) :
  forall (acc s : str),
    fst (App.loop acc ls) = Return s -> snd (App.loop acc ls) = [].
Proof.
  induction ls as [|line ls IH]; intros acc s; [reflexivity|].
  rewrite app_loop_step.
  destruct (handle_line line) as [|v|e]; [apply IH| |discriminate].
  destruct (App.iadd acc v); [apply IH|discriminate].
Qed.

Lemma collect_returns (ls : list bytes) (items : list value) :
  fst (collect ls) = Return items -> snd (collect ls) = [].
Proof.
  revert items. induction ls as [|line ls IH]; intros items; [reflexivity|].
  simpl. destruct (handle_line line) as [|v|e]; [apply IH| |discriminate].
  destruct (collect ls) as [[its|e] u]; simpl; [|discriminate].
  intros _. now apply (IH its).
Qed.

(** A content event whose content is not a string: streaming mode yields
    the value as it is, aggregate mode reads the whole response and then
    raises TypeError from the [join]. *)
Lemma non_string_content_splits_the_modes :
  gen_run (nexts 3) Suspended (fresh_response [number_event; hi_event] None) =
  ([Yield (VInt 5); Yield (VStr (lit "Hi")); StopIteration], Finished,
   fresh_response [] None) /\
  parse_response false (fresh_response [number_event; hi_event] None) =
  (Raise TypeError, fresh_response [] None).
Proof.
  split; [|rewrite parse_response_aggregate]; reflexivity.
Qed.

(** ** The conversational call *)

Lemma finish_call_chunked (c : Conn) :
  finish_call true c = (Return (PGen Suspended), c).
Proof. reflexivity. Qed.

(** When the parser raises, nothing else is done: the response is not
    closed. *)
Lemma finish_call_parser_raises (c c' : Conn) (e : exn) :
  parse_response false c = (Raise e, c') ->
  finish_call false c = (Raise e, c').
Proof.
  intros H. unfold finish_call, bind. now rewrite H.
Qed.

(** When the parser returns, [close()] is called once; what it raises is
    passed on unless one of the two [except] clauses takes it. *)
Lemma finish_call_parser_returns (c c' : Conn) (p : parsed) :
  parse_response false c = (Return p, c') ->
  finish_call false c =
  (match close_raises c' with
   | Some e => if swallowed e then Return p else Raise e
   | None => Return p
   end,
   {| unread := unread c';
      close_raises := close_raises c';
      close_calls := S (close_calls c') |}).
Proof.
  intros H. unfold finish_call, bind. rewrite H. simpl.
  unfold try_pass, response_close, ret.
  destruct (close_raises c') as [e|]; [|reflexivity].
  destruct (swallowed e); reflexivity.
Qed.

Lemma swallowed_spec (e : exn) :
  swallowed e = true <->
  e = StreamConsumedError \/ is_RequestException e = true.
Proof.
  destruct e; simpl; split; auto; intros [H|H]; discriminate.
Qed.

(** A parse that returns has read the response to its end and has left the
    rest of the response as it was. *)
Lemma parse_response_returns (c c' : Conn) (p : parsed) :
  parse_response false c = (Return p, c') ->
  exists s, p = PStr s /\ c' = set_unread [] c.
Proof.
  rewrite parse_response_aggregate.
  destruct (fst (collect (unread c))) as [items|e] eqn:Ei; [|discriminate].
  rewrite (collect_returns _ Ei). simpl.
  destruct (join_empty items) as [t|e]; [|discriminate].
  simpl. intros [= <- <-]. now exists t.
Qed.

(** X2.  The generator never calls [close()] on the response, whatever its
    owner does with it. *)
Lemma gen_run_never_closes (ops : list gen_op) :
  forall (g : generator) (c : Conn),
    close_calls (snd (gen_run ops g c)) = close_calls c.
Proof.
  induction ops as [|op ops IH]; intros g c; [reflexivity|].
  simpl. destruct op; simpl.
  - destruct g; simpl.
    + destruct (resume (unread c)) as [ev rest].
      specialize (IH (match ev with Yield _ => Suspended | _ => Finished end)
                     (set_unread rest c)).
      destruct (gen_run ops _ (set_unread rest c)) as [[evs g'] c'].
      exact IH.
    + specialize (IH Finished c).
      destruct (gen_run ops Finished c) as [[evs g'] c']. exact IH.
  - specialize (IH Finished c).
    destruct (gen_run ops Finished c) as [[evs g'] c']. exact IH.
Qed.

Section Call.

Context {C : Type} `{APIClient C}.
Variables (client : C) (net : Network).
Variables (prompt model : str) (web_search : bool) (provider : str).
Variables (auto_continue : bool) (api_key : option str).

Let data : value :=
  payload prompt model web_search provider auto_continue api_key.

Let call (chunked : bool) : Outcome :=
  enter_prompt client net prompt model web_search provider auto_continue
               api_key chunked.

(** C6. When an aggregate-mode call ([chunked=False]) has obtained a
    response and read it to its end, with the aggregated string [s],
    [close()] has been called on the response exactly once; and when that
    call of [close()] succeeds, or raises StreamConsumedError or another
    exception of requests, [enter_prompt] returns [s]. *)
Theorem aggregate_call_releases_once (resp : Conn) (s : str) :
  snd (send_request client data net) = Return resp ->
  fst (parse_response false resp) = Return (PStr s) ->
  (forall e, close_raises resp = Some e ->
             e = StreamConsumedError \/ is_RequestException e = true) ->
  returned (call false) = Return (PStr s) /\
  response (call false) =
  Some {| unread := [];
          close_raises := close_raises resp;
          close_calls := S (close_calls resp) |}.
Proof.
  intros Hsend Hparse Hclose. unfold call, enter_prompt. fold data.
  destruct (send_request client data net) as [reqs r].
  simpl in Hsend. subst r.
  destruct (parse_response false resp) as [r c'] eqn:Ep.
  simpl in Hparse. subst r.
  destruct (@parse_response_returns _ _ _ Ep) as (s' & [= <-] & ->).
  rewrite (@finish_call_parser_returns _ _ _ Ep). simpl.
  split; [|reflexivity].
  destruct (close_raises resp) as [e|] eqn:Ec; [|reflexivity].
  now rewrite (proj2 (swallowed_spec e) (Hclose e eq_refl)).
Qed.

(** A streaming call hands the response over as it came: nothing read, and
    not closed. *)
Lemma streaming_call_leaves_response (resp : Conn) :
  snd (send_request client data net) = Return resp ->
  returned (call true) = Return (PGen Suspended) /\
  response (call true) = Some resp.
Proof.
  intros Hsend. unfold call, enter_prompt. fold data.
  destruct (send_request client data net) as [reqs r].
  simpl in Hsend. subst r.
  now rewrite finish_call_chunked.
Qed.

(** X3.  When the parser raises in an aggregate-mode call, [enter_prompt] raises
    the same exception and [close()] is not called: the response stays open
    where the parser left it. *)
Lemma aggregate_call_parser_raises (resp c' : Conn) (e : exn) :
  snd (send_request client data net) = Return resp ->
  parse_response false resp = (Raise e, c') ->
  returned (call false) = Raise e /\
  response (call false) = Some c' /\
  close_calls c' = close_calls resp.
Proof.
  intros Hsend Hparse. unfold call, enter_prompt. fold data.
  destruct (send_request client data net) as [reqs r].
  simpl in Hsend. subst r.
  rewrite (@finish_call_parser_raises _ _ _ Hparse).
  repeat split.
  rewrite parse_response_aggregate in Hparse. now injection Hparse as _ <-.
Qed.

(** C9. When the request fails, that is when [send_request] raises because
    no connection could be made or the timeout ran out, [enter_prompt]
    raises the same exception: it returns no value, no partial or empty
    string either, and there is no response. *)
Theorem transport_failure_propagates (chunked : bool) (e : exn) :
  snd (send_request client data net) = Raise e ->
  returned (call chunked) = Raise e /\
  value_of (returned (call chunked)) = None /\
  response (call chunked) = None.
Proof.
  intros Hsend. unfold call, enter_prompt. fold data.
  destruct (send_request client data net) as [reqs r].
  simpl in Hsend. subst r.
  repeat split.
Qed.

End Call.

Lemma aggregate_call_releases_once_witness :
  let resp := fresh_response greeting_stream (Some StreamConsumedError) in
  let o := enter_prompt default_client (fun _ => Return resp) (lit "hello")
                        [] false [] true None false in
  returned o = Return (PStr (lit "Hi there")) /\
  response o = Some {| unread := [];
                       close_raises := Some StreamConsumedError;
                       close_calls := 1 |}.
Proof.
  intros resp.
  apply (@aggregate_call_releases_once _ _ default_client
           (fun _ => Return resp) (lit "hello") [] false [] true None
           resp (lit "Hi there")).
  - reflexivity.
  - vm_compute. reflexivity.
  - intros e He. simpl in He. injection He as <-. now left.
Defined.

Lemma transport_failure_propagates_witness :
  let o := enter_prompt default_client (fun _ => Raise ConnectionError)
                        (lit "hello") [] false [] true None false in
  returned o = Raise ConnectionError /\
  value_of (returned o) = None /\ response o = None.
Proof.
  apply (@transport_failure_propagates _ _ default_client
           (fun _ => Raise ConnectionError)
           (lit "hello") [] false [] true None false ConnectionError).
  reflexivity.
Defined.

Lemma aggregate_call_parser_raises_witness :
  let resp := fresh_response [hi_event; truncated_event; hi_event] None in
  let o := enter_prompt default_client (fun _ => Return resp) (lit "hello")
                        [] false [] true None false in
  returned o = Raise JSONDecodeError /\
  response o = Some (fresh_response [hi_event] None) /\
  close_calls (fresh_response [hi_event] None) = close_calls resp.
Proof.
  intros resp.
  apply (@aggregate_call_parser_raises _ _ default_client
           (fun _ => Return resp) (lit "hello") [] false [] true None
           resp (fresh_response [hi_event] None) JSONDecodeError).
  - reflexivity.
  - rewrite parse_response_aggregate. reflexivity.
Defined.


(** What [enter_prompt] does on a [ConversationAPIClient]. *)
Lemma enter_prompt_on_client (base : str) (net : Network)
  (prompt model : str) (web_search : bool) (provider : str)
  (auto_continue : bool) (api_key : option str) (chunked : bool) :
  enter_prompt (mkClient base) net prompt model web_search provider
               auto_continue api_key chunked =
  let req :=
    conversation_request base
      (payload prompt model web_search provider auto_continue api_key) in
  match net req with
  | Return response =>
    let (r, response') := finish_call chunked response in
    mkOutcome [req] r (Some response')
  | Raise e => mkOutcome [req] (Raise e) None
  end.
Proof. reflexivity. Qed.

(** C8. [enter_prompt] on a [ConversationAPIClient] sends exactly one
    request: to [<base_url>/backend-api/v2/conversation], streamed, with the
    default timeout, and with the body built from the arguments as they are,
    the prompt being the only message, under the role ["user"].  When the
    network returns a response, [enter_prompt] returns or raises what
    [parse_response] does on it for the same [chunked]; in aggregate mode
    this is so when the call of [close()] raises nothing or an exception
    that the two [except] clauses take.  In streaming mode the response is
    handed over untouched. *)
Theorem enter_prompt_request_and_result (base : str) (net : Network)
  (prompt model : str) (web_search : bool) (provider : str)
  (auto_continue : bool) (api_key : option str) (chunked : bool) :
  let req :=
    {| url := base ++ lit "/backend-api/v2/conversation";
       json := VDict [
         (lit "model", VStr model);
         (lit "web_search", VBool web_search);
         (lit "provider", VStr provider);
         (lit "messages",
          VList [VDict [(lit "role", VStr (lit "user"));
                        (lit "content", VStr prompt)]]);
         (lit "auto_continue", VBool auto_continue);
         (lit "api_key", match api_key with
                         | Some k => VStr k
                         | None => VNone
                         end) ];
       stream := true;
       timeout := 30 |} in
  let o := enter_prompt (mkClient base) net prompt model web_search provider
                        auto_continue api_key chunked in
  sent o = [req] /\
  (forall resp,
     net req = Return resp ->
     (chunked = false ->
      forall e, close_raises resp = Some e -> swallowed e = true) ->
     returned o = fst (parse_response chunked resp) /\
     (chunked = true -> response o = Some resp)).
Proof.
  intros req o. subst o. rewrite enter_prompt_on_client.
  change (conversation_request base
            (payload prompt model web_search provider auto_continue api_key))
    with req.
  cbv zeta. split.
  - destruct (net req); [destruct (finish_call _ _)|]; reflexivity.
  - intros resp Hnet Hclose. rewrite Hnet. destruct chunked.
    + rewrite finish_call_chunked. simpl. auto.
    + split; [|discriminate].
      destruct (parse_response false resp) as [[p|e] c'] eqn:Ep.
      * rewrite (@finish_call_parser_returns _ _ _ Ep). simpl.
        destruct (@parse_response_returns _ _ _ Ep) as (s & _ & ->). simpl.
        destruct (close_raises resp) as [e|] eqn:Ec; [|reflexivity].
        now rewrite (Hclose eq_refl e eq_refl).
      * now rewrite (@finish_call_parser_raises _ _ _ Ep).
Qed.

Lemma enter_prompt_request_and_result_witness :
  let net : Network := fun _ => Return (fresh_response greeting_stream None) in
  let o := enter_prompt default_client net (lit "hello") (lit "gpt-4") false
                        [] true None false in
  map url (sent o) =
  [lit "http://127.0.0.1:8080/backend-api/v2/conversation"] /\
  map (fun r => getitem (json r) (lit "messages")) (sent o) =
  [Return (VList [VDict [(lit "role", VStr (lit "user"));
                         (lit "content", VStr (lit "hello"))]])] /\
  returned o = Return (PStr (lit "Hi there")).
Proof.
  intros net.
  pose proof (enter_prompt_request_and_result default_base_url net
                (lit "hello") (lit "gpt-4") false [] true None false) as H.
  cbv zeta in H. destruct H as [Hsent Hres].
  fold default_client in Hsent, Hres.
  intros o. subst o. rewrite Hsent.
  split; [reflexivity|]. split; [reflexivity|].
  match type of Hres with
  | forall resp, net ?r = _ -> _ =>
    destruct (Hres (fresh_response greeting_stream None)) as [Hr _]
  end.
  - reflexivity.
  - intros _ e He. discriminate He.
  - rewrite Hr. vm_compute. reflexivity.
Defined.

(** ** The subscript of a prefixed line *)

Lemma str_eqb_refl (s : str) : str_eqb s s = true.
Proof.
  induction s as [|c s IH]; simpl; [reflexivity|].
  now rewrite N.eqb_refl.
Qed.

Lemma str_eqb_eq (a b : str) : str_eqb a b = true -> a = b.
Proof.
  revert b. induction a as [|x a IH]; intros [|y b]; simpl;
    try discriminate; [reflexivity|].
  intros H. apply andb_prop in H. destruct H as [Hx Hr].
  apply N.eqb_eq in Hx. subst. f_equal. now apply IH.
Qed.

(** Insert, then look up: the value stored is the value found, and no other
    key is disturbed. *)
Lemma dict_lookup_setitem_same (k : str) (v : value) (d : list (str * value)) :
  dict_lookup k (dict_setitem k v d) = Some v.
Proof.
  induction d as [|[k' v'] d IH]; simpl.
  - now rewrite str_eqb_refl.
  - destruct (str_eqb k' k) eqn:E; simpl; now rewrite E.
Qed.

Lemma dict_lookup_setitem_other (k k' : str) (v : value)
  (d : list (str * value)) :
  k <> k' -> dict_lookup k' (dict_setitem k v d) = dict_lookup k' d.
Proof.
  intros Hk. induction d as [|[k0 v0] d IH]; simpl.
  - destruct (str_eqb k k') eqn:E; [|reflexivity].
    now apply str_eqb_eq in E.
  - destruct (str_eqb k0 k) eqn:E; simpl.
    + apply str_eqb_eq in E. subst k0.
      destruct (str_eqb k k') eqn:E'; [|reflexivity].
      now apply str_eqb_eq in E'.
    + now rewrite IH.
Qed.

Lemma has_content_setitem (k : str) (v : value) (d : list (str * value)) :
  has_content d \/ k = lit "content" -> has_content (dict_setitem k v d).
Proof.
  unfold has_content. intros [H | ->].
  - destruct (list_eq_dec N.eq_dec k (lit "content")) as [-> | Hk].
    + now rewrite dict_lookup_setitem_same.
    + now rewrite dict_lookup_setitem_other.
  - now rewrite dict_lookup_setitem_same.
Qed.

Lemma bottom_ok_cons (f : Json.frame) (stk : list Json.frame) :
  bottom_ok stk -> bottom_ok (f :: stk).
Proof.
  destruct stk as [|g stk]; [intros []|].
  intros H. destruct f; exact H.
Qed.

Lemma startswith_app (s p : str) :
  startswith s p = true -> exists rest, s = p ++ rest.
Proof.
  revert s. induction p as [|c p IH]; intros s; simpl.
  - intros _. now exists s.
  - destruct s as [|x s]; [discriminate|].
    intros H. apply andb_prop in H. destruct H as [Hx Hr].
    apply N.eqb_eq in Hx. subst x.
    destruct (IH s Hr) as [rest ->]. now exists rest.
Qed.

Lemma lex_app (a b : str) :
  forall m,
    Json.lex m (a ++ b) =
    match lex_run m a with
    | None => None
    | Some (ts, m') => option_map (app ts) (Json.lex m' b)
    end.
Proof.
  induction a as [|c a IH]; intros m; simpl.
  - destruct (Json.lex m b); reflexivity.
  - destruct (Json.lex_step m c) as [[ts m']|]; [|reflexivity].
    rewrite IH. destruct (lex_run m' a) as [[ts' m'']|]; [|reflexivity].
    destruct (Json.lex m'' b) as [ts''|]; simpl; [|reflexivity].
    now rewrite app_assoc.
Qed.

Lemma lex_run_prefix :
  lex_run Json.LTop content_prefix = Some (prefix_tokens, Json.LTop).
Proof. vm_compute. reflexivity. Qed.

Lemma lex_prefix (rest : str) :
  Json.lex Json.LTop (content_prefix ++ rest) =
  option_map (app prefix_tokens) (Json.lex Json.LTop rest).
Proof. now rewrite lex_app, lex_run_prefix. Qed.

Lemma parse_prefix (ts : list Json.token) :
  Json.parse (Json.PValue []) (prefix_tokens ++ ts) =
  Json.parse
    (Json.PValue [Json.FDict [(lit "type", VStr (lit "content"))]
                             (lit "content")])
    ts.
Proof. reflexivity. Qed.

Lemma bottom_ok_nonempty (stk : list Json.frame) : bottom_ok stk -> stk <> [].
Proof. now destruct stk. Qed.

Lemma rooted_entry (d : list (str * value)) (stk : list Json.frame) :
  bottom_ok stk ->
  match stk with
  | [] => has_content d
  | _ => bottom_ok stk
  end.
Proof. now destruct stk. Qed.

(** A finished value goes into a container that keeps the invariant. *)
Lemma deliver_rooted (v : value) (stk : list Json.frame) :
  bottom_ok stk -> rooted (Json.deliver v stk).
Proof.
  destruct stk as [|[items|d k] stk]; [intros []| |]; simpl.
  - destruct stk; [intros []|auto].
  - destruct stk as [|g stk]; [|auto].
    intros H. now apply has_content_setitem.
Qed.

Lemma value_start_rooted (stk : list Json.frame) (t : Json.token)
  (p : Json.pstate) :
  bottom_ok stk -> Json.value_start stk t = Some p -> rooted p.
Proof.
  intros Hb. destruct t; simpl; try discriminate; intros [= <-]; auto.
  now apply deliver_rooted.
Qed.

(** Every step of the parser keeps the invariant. *)
Lemma parse_step_rooted (p p' : Json.pstate) (t : Json.token) :
  rooted p -> Json.parse_step p t = Some p' -> rooted p'.
Proof.
  destruct p as [stk|stk|items stk|stk|d stk|d k stk|d stk|v];
    cbn [Json.parse_step rooted]; intros Hr.
  - now apply value_start_rooted.
  - destruct t; try (apply value_start_rooted; now apply bottom_ok_cons).
    intros [= <-]. now apply deliver_rooted.
  - destruct t; try discriminate; intros [= <-].
    + now apply deliver_rooted.
    + exact (bottom_ok_cons (Json.FList items) stk Hr).
  - destruct t as [| | | | | |[]]; try discriminate; intros [= <-].
    + now apply deliver_rooted.
    + cbn [rooted]. now apply rooted_entry.
  - destruct t as [| | | | | |[]]; try discriminate; intros [= <-]. exact Hr.
  - destruct t; try discriminate; intros [= <-]. cbn [rooted].
    destruct stk as [|g stk]; [now left|].
    exact (bottom_ok_cons (Json.FDict d k) (g :: stk) Hr).
  - destruct t; try discriminate; intros [= <-].
    + destruct stk as [|g stk]; [now exists d|].
      now apply deliver_rooted.
    + exact Hr.
  - discriminate.
Qed.

Lemma parse_rooted (ts : list Json.token) :
  forall p p', rooted p -> Json.parse p ts = Some p' -> rooted p'.
Proof.
  induction ts as [|t ts IH]; intros p p' Hr; simpl.
  - now intros [= <-].
  - destruct (Json.parse_step p t) as [q|] eqn:E; [|discriminate].
    apply IH. eapply parse_step_rooted; eassumption.
Qed.

(** Text that begins with the prefix and is JSON is a dict with the key
    ['content']. *)
Lemma loads_prefixed (text : str) (o : value) :
  startswith text content_prefix = true ->
  Json.loads text = Return o ->
  exists d v, o = VDict d /\ dict_lookup (lit "content") d = Some v.
Proof.
  intros Hp Hl. destruct (startswith_app _ _ Hp) as [rest ->].
  unfold Json.loads in Hl. rewrite lex_prefix in Hl.
  destruct (Json.lex Json.LTop rest) as [ts|]; [|discriminate].
  cbn [option_map] in Hl. rewrite parse_prefix in Hl.
  destruct (Json.parse _ ts) as [[| | | | | | |v]|] eqn:E; try discriminate.
  injection Hl as ->.
  apply parse_rooted in E; [|simpl; now right].
  destruct E as (d & -> & Hd). unfold has_content in Hd.
  destruct (dict_lookup (lit "content") d) as [v|] eqn:Ev; [|contradiction].
  now exists d, v.
Qed.

(** The subscript of a prefixed line that is JSON returns. *)
Lemma subscript_prefixed (text : str) (o : value) :
  startswith text content_prefix = true ->
  Json.loads text = Return o ->
  exists v, getitem o (lit "content") = Return v.
Proof.
  intros Hp Hl. destruct (loads_prefixed _ Hp Hl) as (d & v & -> & Hv).
  exists v. simpl. now rewrite Hv.
Qed.

(** When a line raises, it is the decoding or the parsing that does. *)
Lemma handle_line_fail (line : bytes) (e : exn) :
  handle_line line = Fail e -> raises_on line e.
Proof.
  unfold handle_line, raises_on. destruct line as [|b line]; [discriminate|].
  destruct (Utf8.decode (b :: line)) as [text|e'] eqn:Ed.
  - destruct (startswith text content_prefix) eqn:Hp; [|discriminate].
    destruct (Json.loads text) as [o|e'] eqn:El.
    + destruct (subscript_prefixed _ Hp El) as [v Hv]. simpl.
      rewrite Hv. discriminate.
    + simpl. intros [= <-]. right. now exists text.
  - intros [= <-]. now left.
Qed.

(** ** The exceptions of the parsers *)

Lemma resume_rest (ls : list bytes) :
  forall line, In line (snd (resume ls)) -> In line ls.
Proof.
  induction ls as [|l ls IH]; intros line; simpl; [tauto|].
  destruct (handle_line l); simpl; auto.
Qed.

Lemma resume_raised (ls rest : list bytes) (e : exn) :
  resume ls = (Raised e, rest) ->
  exists line, In line ls /\ raises_on line e.
Proof.
  induction ls as [|l ls IH]; simpl; [discriminate|].
  destruct (handle_line l) as [|v|e'] eqn:E.
  - intros H. destruct (IH H) as (line & Hi & Hr). exists line. auto.
  - discriminate.
  - intros [= <- _]. exists l. split; [now left|].
    now apply handle_line_fail.
Qed.

Lemma collect_raised (ls : list bytes) (e : exn) :
  fst (collect ls) = Raise e ->
  exists line, In line ls /\ raises_on line e.
Proof.
  induction ls as [|l ls IH]; simpl; [discriminate|].
  destruct (handle_line l) as [|v|e'] eqn:E.
  - intros H. destruct (IH H) as (line & Hi & Hr). exists line. auto.
  - destruct (collect ls) as [[items|e'] u]; simpl in *; [discriminate|].
    intros [= <-]. destruct (IH eq_refl) as (line & Hi & Hr).
    exists line. auto.
  - simpl. intros [= <-]. exists l. split; [now left|].
    now apply handle_line_fail.
Qed.

Lemma join_empty_raised (items : list value) (e : exn) :
  join_empty items = Raise e -> e = TypeError.
Proof.
  induction items as [|v items IH]; simpl; [discriminate|].
  destruct v; try (now intros [= <-]).
  destruct (join_empty items); simpl; [discriminate|].
  intros [= <-]. now apply IH.
Qed.

Lemma app_loop_raised (ls : list bytes) :
  forall (acc : str) (e : exn),
    fst (App.loop acc ls) = Raise e ->
    e = TypeError \/ exists line, In line ls /\ raises_on line e.
Proof.
  induction ls as [|l ls IH]; intros acc e; [discriminate|].
  rewrite app_loop_step.
  destruct (handle_line l) as [|v|e'] eqn:E.
  - intros H. destruct (IH _ _ H) as [->|(line & Hi & Hr)]; [now left|].
    right. exists line. split; [now right|exact Hr].
  - destruct v; simpl; try (intros [= <-]; now left).
    intros H. destruct (IH _ _ H) as [->|(line & Hi & Hr)]; [now left|].
    right. exists line. split; [now right|exact Hr].
  - simpl. intros [= <-]. right. exists l. split; [now left|].
    now apply handle_line_fail.
Qed.

(** X1.  The parsers add no exception of their own to those of the two
    library calls of the loop body.  The subscript [['content']] never
    raises, neither KeyError nor TypeError: whenever [json.loads] returns on
    text that begins with the prefix, the value is a dict with that key.  So,
    whatever lines the response holds and whatever its owner does with the
    generator, an exception that leaves a [next()] was raised by
    [line.decode('utf-8')] or by [json.loads] on a line that was still
    unread; aggregate mode, and the parser of [src/app.py], raise such an
    exception or the TypeError of [join] and of [+=]. *)
Theorem parsers_raise_only_library_errors (ops : list gen_op) (g : generator)
  (c : Conn) :
  (forall text o,
      startswith text content_prefix = true ->
      Json.loads text = Return o ->
      exists v, getitem o (lit "content") = Return v) /\
  Forall (fun ev => match ev with
                    | Raised e =>
                      exists line, In line (unread c) /\ raises_on line e
                    | _ => True
                    end)
         (fst (fst (gen_run ops g c))) /\
  match fst (parse_response false c) with
  | Raise e =>
    e = TypeError \/ exists line, In line (unread c) /\ raises_on line e
  | Return _ => True
  end /\
  match fst (App.parse_response c) with
  | Raise e =>
    e = TypeError \/ exists line, In line (unread c) /\ raises_on line e
  | Return _ => True
  end.
Proof.
  split; [exact subscript_prefixed|]. split; [|split].
  - revert g c. induction ops as [|op ops IH]; intros g c; [constructor|].
    simpl. destruct op; simpl.
    + destruct g; simpl.
      * destruct (resume (unread c)) as [ev rest] eqn:E.
        specialize (IH (match ev with Yield _ => Suspended | _ => Finished end)
                       (set_unread rest c)).
        destruct (gen_run ops _ (set_unread rest c)) as [[evs g'] c'].
        simpl in *. constructor.
        -- destruct ev as [v| |e]; auto. eapply resume_raised; eassumption.
        -- eapply Forall_impl; [|exact IH].
           intros [v| |e]; auto. intros (line & Hi & Hr).
           exists line. split; [|exact Hr].
           apply resume_rest. now rewrite E.
      * specialize (IH Finished c).
        destruct (gen_run ops Finished c) as [[evs g'] c'].
        simpl in *. now constructor.
    + specialize (IH Finished c).
      destruct (gen_run ops Finished c) as [[evs g'] c']. exact IH.
  - rewrite parse_response_aggregate. simpl.
    destruct (fst (collect (unread c))) as [items|e] eqn:Ec; simpl.
    + destruct (join_empty items) as [s|e] eqn:Ej; simpl; [exact I|].
      left. eapply join_empty_raised; eassumption.
    + right. now apply collect_raised.
  - unfold App.parse_response.
    pose proof (app_loop_raised (unread c) []) as H.
    destruct (App.loop [] (unread c)) as [[s|e] rest]; simpl in *; auto.
Qed.

(** ** How far a [next()] reads *)

Lemma resume_yield_split (ls rest : list bytes) (v : value) :
  resume ls = (Yield v, rest) ->
  exists skipped line,
    ls = skipped ++ line :: rest /\
    Forall (fun l => handle_line l = Skip) skipped /\
    handle_line line = Emit v.
Proof.
  induction ls as [|l ls IH]; simpl; [discriminate|].
  destruct (handle_line l) as [|v'|e] eqn:E.
  - intros H. destruct (IH H) as (skipped & line & -> & Hs & He).
    exists (l :: skipped), line. repeat split; auto.
  - intros [= <- <-]. exists [], l. repeat split; auto.
  - discriminate.
Qed.

Lemma handle_line_emit (line : bytes) (v : value) :
  handle_line line = Emit v <-> carries line v.
Proof.
  unfold handle_line, carries. split.
  - destruct line as [|b line]; [discriminate|].
    destruct (Utf8.decode (b :: line)) as [text|e]; [|discriminate].
    destruct (startswith text content_prefix) eqn:Hp; [|discriminate].
    destruct (Json.loads text) as [o|e] eqn:El; simpl; [|discriminate].
    destruct (getitem o (lit "content")) as [v'|e] eqn:Eg; [|discriminate].
    intros [= <-]. now exists text, o.
  - intros (text & o & Hd & Hp & Hl & Hg).
    destruct line as [|b line].
    + simpl in Hd. injection Hd as <-. discriminate Hp.
    + rewrite Hd, Hp, Hl. simpl. now rewrite Hg.
Qed.

Lemma handle_line_skip (line : bytes) :
  handle_line line = Skip <-> ignored_line line.
Proof.
  split; [|apply handle_line_ignored].
  unfold handle_line, ignored_line.
  destruct line as [|b line]; [now left|].
  destruct (Utf8.decode (b :: line)) as [text|e]; [|discriminate].
  destruct (startswith text content_prefix) eqn:Hp.
  - destruct (rbind (Json.loads text) _); discriminate.
  - intros _. right. now exists text.
Qed.

(** X5.  A [next()] that yields has read the response up to the line that
    carries the value and no further: the lines before that line are lines
    the parser passes over, the lines behind it are still unread, the
    generator stays suspended and the response is not closed. *)
Theorem next_reads_up_to_the_fragment (c c' : Conn) (g' : generator)
  (v : value) :
  gen_next Suspended c = (Yield v, g', c') ->
  exists skipped line,
    unread c = skipped ++ line :: unread c' /\
    Forall ignored_line skipped /\
    carries line v /\
    g' = Suspended /\
    close_calls c' = close_calls c /\
    close_raises c' = close_raises c.
Proof.
  simpl. destruct (resume (unread c)) as [ev rest] eqn:E.
  intros [= -> <- <-]. simpl.
  destruct (resume_yield_split _ E) as (skipped & line & Hl & Hs & He).
  exists skipped, line. repeat split; auto.
  - eapply Forall_impl; [|exact Hs]. intros l. apply handle_line_skip.
  - now apply handle_line_emit.
Qed.

Lemma hi_event_carries : carries hi_event (VStr (lit "Hi")).
Proof. content_line. Defined.

Lemma next_reads_up_to_the_fragment_witness :
  exists skipped line,
    unread (fresh_response ([] :: greeting_stream) None) =
    skipped ++ line
    :: unread (fresh_response
                 [ blit "{'type': 'status', 'content': 'ignored'}";
                   blit "{'type': 'content', 'content': ' there'}" ] None) /\
    Forall ignored_line skipped /\
    carries line (VStr (lit "Hi")) /\
    Suspended = Suspended /\
    close_calls (fresh_response
                   [ blit "{'type': 'status', 'content': 'ignored'}";
                     blit "{'type': 'content', 'content': ' there'}" ] None) =
    close_calls (fresh_response ([] :: greeting_stream) None) /\
    close_raises (fresh_response
                    [ blit "{'type': 'status', 'content': 'ignored'}";
                      blit "{'type': 'content', 'content': ' there'}" ] None) =
    close_raises (fresh_response ([] :: greeting_stream) None).
Proof.
  apply (@next_reads_up_to_the_fragment
           (fresh_response ([] :: greeting_stream) None)
           (fresh_response
              [ blit "{'type': 'status', 'content': 'ignored'}";
                blit "{'type': 'content', 'content': ' there'}" ] None)
           Suspended (VStr (lit "Hi"))).
  vm_compute. reflexivity.
Defined.

(** ** Aggregate mode as the join of what streaming mode yields *)

Lemma gen_run_stops_collect (ls : list bytes) :
  forall (vs : list value) (cr : option exn) (cc : nat),
    fst (fst (gen_run (nexts (S (length vs))) Suspended (mkConn ls cr cc))) =
    map Yield vs ++ [StopIteration] ->
    collect ls = (Return vs, []).
Proof.
  induction ls as [|line ls IH]; intros vs cr cc.
  - rewrite gen_run_next. simpl gen_next. cbv iota beta.
    rewrite gen_run_finished. simpl.
    destruct vs; [reflexivity|discriminate].
  - rewrite gen_run_next. simpl collect.
    destruct (handle_line line) as [|v|e] eqn:E.
    + rewrite (@gen_next_ignored line ls cr cc E). rewrite <- gen_run_next.
      apply IH.
    + rewrite (@gen_next_emit line v ls cr cc E).
      destruct vs as [|v' vs].
      * destruct (gen_run (nexts 0) Suspended (mkConn ls cr cc))
          as [[evs g] c']. discriminate.
      * specialize (IH vs cr cc). simpl length.
        destruct (gen_run (nexts (S (length vs))) Suspended (mkConn ls cr cc))
          as [[evs g] c'].
        simpl. intros [= <- H]. now rewrite (IH H).
    + rewrite (@gen_next_fail line e ls cr cc E). rewrite gen_run_finished.
      destruct vs; discriminate.
Qed.

Lemma join_empty_text (vs : list value) :
  join_empty vs =
  if forallb is_str vs then Return (concat (map text_of vs))
  else Raise TypeError.
Proof.
  induction vs as [|v vs IH]; [reflexivity|].
  destruct v; try reflexivity. simpl. rewrite IH.
  destruct (forallb is_str vs); reflexivity.
Qed.

(** X6.  When the streaming sequence of a response runs to its end, having
    yielded the values [v1 .. vN] and then stopped, aggregate mode on the
    same response reads it to its end as well and returns the concatenation
    of [v1 .. vN] if all of them are strings; if one of them is not, it
    raises TypeError, after the whole response has been read. *)
Theorem aggregate_is_join_of_stream (c : Conn) (vs : list value) :
  fst (fst (gen_run (nexts (S (length vs))) Suspended c)) =
  map Yield vs ++ [StopIteration] ->
  parse_response false c =
  (if forallb is_str vs then Return (PStr (concat (map text_of vs)))
   else Raise TypeError,
   set_unread [] c).
Proof.
  intros H. destruct c as [ls cr cc].
  rewrite parse_response_aggregate. simpl unread.
  rewrite (gen_run_stops_collect ls vs cr cc H). simpl.
  rewrite join_empty_text. destruct (forallb is_str vs); reflexivity.
Qed.

Lemma aggregate_is_join_of_stream_witness :
  parse_response false (fresh_response [number_event; hi_event] None) =
  (Raise TypeError, fresh_response [] None) /\
  parse_response false (fresh_response greeting_stream None) =
  (Return (PStr (lit "Hi there")), fresh_response [] None).
Proof.
  split.
  - apply (@aggregate_is_join_of_stream
             (fresh_response [number_event; hi_event] None)
             [VInt 5; VStr (lit "Hi")]).
    vm_compute. reflexivity.
  - apply (@aggregate_is_join_of_stream
             (fresh_response greeting_stream None)
             [VStr (lit "Hi"); VStr (lit " there")]).
    vm_compute. reflexivity.
Defined.

(** ** A content value that is not a string *)

Lemma collect_after_well_formed (before rest : list bytes) (fs : list str) :
  well_formed before fs ->
  collect (before ++ rest) =
  (rbind (fst (collect rest)) (fun items => Return (map VStr fs ++ items)),
   snd (collect rest)).
Proof.
  induction 1 as [|l ls fs Hi _ IH|l f ls fs Hc _ IH]; simpl.
  - destruct (collect rest) as [[items|e] u]; reflexivity.
  - now rewrite (handle_line_ignored Hi).
  - rewrite (handle_line_content Hc), IH.
    destruct (fst (collect rest)); reflexivity.
Qed.

Lemma app_loop_after_well_formed (before rest : list bytes) (fs : list str) :
  well_formed before fs ->
  forall acc, App.loop acc (before ++ rest) = App.loop (acc ++ concat fs) rest.
Proof.
  induction 1 as [|l ls fs Hi _ IH|l f ls fs Hc _ IH]; intros acc;
    cbn [app].
  - simpl. now rewrite app_nil_r.
  - rewrite app_loop_step, (handle_line_ignored Hi). apply IH.
  - rewrite app_loop_step, (handle_line_content Hc). simpl App.iadd.
    cbv iota beta. rewrite IH. simpl concat. now rewrite app_assoc.
Qed.

Lemma join_empty_not_str (pre post : list value) (v : value) :
  is_str v = false -> value_of (join_empty (pre ++ v :: post)) = None.
Proof.
  intros Hv. rewrite join_empty_text, forallb_app. simpl. rewrite Hv.
  now rewrite andb_false_r.
Qed.

(** X4.  After a well-formed beginning, a content event whose content is not
    a string stops the parser of [src/app.py] on the spot: it raises
    TypeError and leaves every line behind that event unread.  The parser of
    [src/conversation/client.py] returns no string either, but reads on: it
    leaves the response where it would leave the rest of the stream alone. *)
Theorem app_stops_at_non_string (before after : list bytes) (fs : list str)
  (line : bytes) (v : value) (on_close : option exn) :
  well_formed before fs ->
  carries line v ->
  is_str v = false ->
  App.parse_response (fresh_response (before ++ line :: after) on_close) =
  (Raise TypeError, fresh_response after on_close) /\
  value_of (fst (parse_response false
                   (fresh_response (before ++ line :: after) on_close))) =
  None /\
  snd (parse_response false
         (fresh_response (before ++ line :: after) on_close)) =
  snd (parse_response false (fresh_response after on_close)).
Proof.
  intros Hw Hc Hv. apply handle_line_emit in Hc. split; [|split].
  - unfold App.parse_response. simpl unread.
    rewrite (app_loop_after_well_formed (line :: after) Hw).
    rewrite app_loop_step, Hc. destruct v; try discriminate; reflexivity.
  - rewrite parse_response_aggregate. simpl unread.
    rewrite (collect_after_well_formed (line :: after) Hw). simpl.
    rewrite Hc. destruct (collect after) as [[items|e] u]; simpl;
      [|reflexivity].
    pose proof (join_empty_not_str (map VStr fs) items v Hv) as Hj.
    destruct (join_empty (map VStr fs ++ v :: items));
      [discriminate Hj|reflexivity].
  - rewrite !parse_response_aggregate. simpl unread.
    rewrite (collect_after_well_formed (line :: after) Hw). simpl.
    rewrite Hc. destruct (collect after) as [r u]; reflexivity.
Qed.

Lemma number_event_carries : carries number_event (VInt 5).
Proof. content_line. Defined.

Lemma app_stops_at_non_string_witness :
  App.parse_response
    (fresh_response ([hi_event] ++ number_event :: [hi_event; hi_event])
                    None) =
  (Raise TypeError, fresh_response [hi_event; hi_event] None) /\
  value_of (fst (parse_response false
                   (fresh_response
                      ([hi_event] ++ number_event :: [hi_event; hi_event])
                      None))) = None /\
  snd (parse_response false
         (fresh_response ([hi_event] ++ number_event :: [hi_event; hi_event])
                         None)) =
  snd (parse_response false (fresh_response [hi_event; hi_event] None)).
Proof.
  apply (@app_stops_at_non_string [hi_event] [hi_event; hi_event]
           [lit "Hi"] number_event (VInt 5) None).
  - exact hi_event_well_formed.
  - exact number_event_carries.
  - reflexivity.
Defined.

(** ** The two aggregate parsers compared *)

(** Where the loop of [src/app.py] raises: at a line on which the generator
    raises as well, or at the first content event whose content is not a
    string, which the generator yields. *)
Lemma app_loop_raises (ls : list bytes) :
  forall (acc : str) (e : exn),
    fst (App.loop acc ls) = Raise e ->
    collect ls = (Raise e, snd (App.loop acc ls)) \/
    (e = TypeError /\
     exists before fs line v after,
       ls = before ++ line :: after /\
       well_formed before fs /\
       carries line v /\ is_str v = false /\
       snd (App.loop acc ls) = after).
Proof.
  induction ls as [|l ls IH]; intros acc e; [discriminate|].
  rewrite app_loop_step. simpl collect.
  destruct (handle_line l) as [|v|e'] eqn:E.
  - intros H.
    destruct (IH _ _ H)
      as [Hc|(-> & before & fs & line & v & after & Hl & Hw & Hcar & Hv & Hs)];
      [now left|].
    right. split; [reflexivity|].
    exists (l :: before), fs, line, v, after. subst ls.
    repeat split; auto.
    apply wf_ignored; [now apply handle_line_skip|exact Hw].
  - destruct (is_str v) eqn:Ev.
    + destruct v as [| | | |s| |]; try discriminate Ev.
      simpl App.iadd. cbv iota beta. intros H.
      destruct (IH _ _ H)
        as [Hc|(-> & before & fs & line & v & after & Hl & Hw & Hcar & Hv
                & Hs)].
      * left. now rewrite Hc.
      * right. split; [reflexivity|].
        exists (l :: before), (s :: fs), line, v, after. subst ls.
        repeat split; auto.
        apply wf_content; [now apply handle_line_emit|exact Hw].
    + assert (Hi : App.iadd acc v = Raise TypeError)
        by (destruct v; try reflexivity; discriminate Ev).
      rewrite Hi. intros [= <-]. right. split; [reflexivity|].
      exists [], [], l, v, ls. repeat split; auto.
      * constructor.
      * now apply handle_line_emit.
  - intros [= <-]. now left.
Qed.

(** The parser of the client past a content event whose content is not a
    string: it reads on as it would read the rest of the stream alone, and
    raises what it would raise there, or the TypeError of the [join]. *)
Lemma client_after_non_string (before after : list bytes) (fs : list str)
  (line : bytes) (v : value) (c : Conn) :
  well_formed before fs ->
  carries line v ->
  is_str v = false ->
  unread c = before ++ line :: after ->
  parse_response false c =
  (match fst (parse_response false (set_unread after c)) with
   | Raise e => Raise e
   | Return _ => Raise TypeError
   end,
   snd (parse_response false (set_unread after c))).
Proof.
  intros Hw Hc Hv Hu. apply handle_line_emit in Hc.
  rewrite !parse_response_aggregate. simpl unread. rewrite Hu.
  rewrite (collect_after_well_formed (line :: after) Hw). simpl collect.
  rewrite Hc. destruct (collect after) as [[items|e] u]; [|reflexivity].
  cbn [fst snd rbind].
  rewrite (join_empty_text (map VStr fs ++ v :: items)), forallb_app.
  cbn [forallb]. rewrite Hv, andb_false_r. cbn [rbind].
  destruct (join_empty items) as [t|e] eqn:Ej; [reflexivity|].
  now rewrite (join_empty_raised _ Ej).
Qed.

(** C10, as the code has it.  On every response the aggregate parser of
    [src/app.py] returns a string exactly when the parser of
    [src/conversation/client.py] called with [chunked=False] does; the
    strings are then equal and both have read the response to its end.  On a
    response in which every content event carries a string the two are
    extensionally equal: the same string or the same exception, and the same
    lines left unread.  When the parser of [src/app.py] raises, the parser
    of the client raises as well, and either it raises the same exception
    with the same lines left unread, or the parser of [src/app.py] has
    raised TypeError at a content event whose content is not a string,
    after a well-formed beginning, and has left the lines behind that event
    unread, while the parser of the client reads on as far as it would read
    those lines alone and raises what it would raise on them, or TypeError
    if it would return. *)
Theorem app_parser_against_client_parser (c : Conn) :
  option_map PStr (value_of (fst (App.parse_response c))) =
  value_of (fst (parse_response false c)) /\
  (forall s, fst (App.parse_response c) = Return s ->
             App.parse_response c = (Return s, set_unread [] c) /\
             parse_response false c = (Return (PStr s), set_unread [] c)) /\
  ((forall line v,
       In line (unread c) -> carries line v -> is_str v = true) ->
   parse_response false c =
   (rbind (fst (App.parse_response c)) (fun s => Return (PStr s)),
    snd (App.parse_response c))) /\
  (forall e, fst (App.parse_response c) = Raise e ->
     parse_response false c = (Raise e, snd (App.parse_response c)) \/
     (e = TypeError /\
      exists before fs line v after,
        unread c = before ++ line :: after /\
        well_formed before fs /\
        carries line v /\ is_str v = false /\
        snd (App.parse_response c) = set_unread after c /\
        parse_response false c =
        (match fst (parse_response false (set_unread after c)) with
         | Raise e' => Raise e'
         | Return _ => Raise TypeError
         end,
         snd (parse_response false (set_unread after c))))).
Proof.
  assert (Hv : option_map PStr (value_of (fst (App.parse_response c))) =
               value_of (fst (parse_response false c))).
  { rewrite parse_response_aggregate. unfold App.parse_response.
    pose proof (app_loop_collect (unread c) []) as H.
    destruct (App.loop [] (unread c)) as [r rest]. simpl in *. rewrite H.
    destruct (rbind (fst (collect (unread c))) join_empty); reflexivity. }
  assert (Hret : forall s, fst (App.parse_response c) = Return s ->
             App.parse_response c = (Return s, set_unread [] c) /\
             parse_response false c = (Return (PStr s), set_unread [] c)).
  { intros s Hs. rewrite Hs in Hv. split.
    - unfold App.parse_response in *.
      pose proof (@app_loop_returns (unread c) [] s) as Hr.
      destruct (App.loop [] (unread c)) as [r rest]. simpl in *. subst r.
      now rewrite (Hr eq_refl).
    - rewrite parse_response_aggregate in Hv |- *.
      cbn [fst value_of option_map] in Hv.
      destruct (fst (collect (unread c))) as [items|e] eqn:Ei; [|discriminate].
      rewrite (collect_returns _ Ei).
      destruct (rbind (Return items) join_empty) as [t|e]; [|discriminate].
      simpl in Hv. now injection Hv as <-. }
  assert (Hraise : forall e, fst (App.parse_response c) = Raise e ->
     parse_response false c = (Raise e, snd (App.parse_response c)) \/
     (e = TypeError /\
      exists before fs line v after,
        unread c = before ++ line :: after /\
        well_formed before fs /\
        carries line v /\ is_str v = false /\
        snd (App.parse_response c) = set_unread after c /\
        parse_response false c =
        (match fst (parse_response false (set_unread after c)) with
         | Raise e' => Raise e'
         | Return _ => Raise TypeError
         end,
         snd (parse_response false (set_unread after c))))).
  { intros e He. unfold App.parse_response in He |- *.
    pose proof (@app_loop_raises (unread c) [] e) as H.
    destruct (App.loop [] (unread c)) as [r rest]. cbn [fst snd] in *.
    destruct (H He)
      as [Hc|(-> & before & fs & line & v & after & Hu & Hw & Hcar & Hs
              & ->)].
    - left. rewrite parse_response_aggregate, Hc. reflexivity.
    - right. split; [reflexivity|].
      exists before, fs, line, v, after. repeat split; auto.
      eapply client_after_non_string; eassumption. }
  split; [exact Hv|]. split; [exact Hret|]. split; [|exact Hraise].
  intros Hall. destruct (fst (App.parse_response c)) as [s|e] eqn:Ea.
  - destruct (Hret s eq_refl) as [Ha Hc]. rewrite Hc, Ha. reflexivity.
  - destruct (Hraise e eq_refl)
      as [Hc|(_ & before & fs & line & v & after & Hu & _ & Hcar & Hs & _)];
      [exact Hc|].
    rewrite (Hall line v) in Hs; [discriminate| |exact Hcar].
    rewrite Hu. apply in_elt.
Qed.

(** C10 as stated fails: on a content event whose content is a number,
    followed by a line that does not parse, the parser of [src/app.py]
    raises TypeError at the number and leaves the second line unread; the
    parser of the client reads both lines and raises JSONDecodeError. *)
Lemma parsers_differ_on_non_string_content :
  App.parse_response
    (fresh_response [number_event; truncated_event] None) =
  (Raise TypeError, fresh_response [truncated_event] None) /\
  parse_response false
    (fresh_response [number_event; truncated_event] None) =
  (Raise JSONDecodeError, fresh_response [] None) /\
  App.parse_response
    (fresh_response [number_event; truncated_event] None) <>
  (Raise JSONDecodeError, fresh_response [] None).
Proof.
  split; [reflexivity|].
  split; [rewrite parse_response_aggregate; reflexivity|discriminate].
Qed.

(** ** The call of [src/app.py] and the call of the client *)

Lemma app_parse_returns (c c' : Conn) (s : str) :
  App.parse_response c = (Return s, c') ->
  c' = set_unread [] c /\
  parse_response false c = (Return (PStr s), set_unread [] c).
Proof.
  unfold App.parse_response. intros H.
  pose proof (app_loop_collect (unread c) []) as Hv.
  pose proof (@app_loop_returns (unread c) [] s) as Hr.
  destruct (App.loop [] (unread c)) as [r rest].
  injection H as -> <-. cbn [fst snd] in Hv, Hr.
  rewrite (Hr eq_refl). split; [reflexivity|].
  rewrite parse_response_aggregate.
  destruct (fst (collect (unread c))) as [items|e] eqn:Ei;
    [|discriminate Hv].
  rewrite (collect_returns _ Ei). cbn [rbind] in Hv |- *.
  destruct (join_empty items) as [t|e]; [|discriminate Hv].
  cbn in Hv. now injection Hv as <-.
Qed.

Lemma app_parse_raises (c c' : Conn) (e : exn) :
  App.parse_response c = (Raise e, c') ->
  value_of (fst (parse_response false c)) = None.
Proof.
  unfold App.parse_response. intros H.
  pose proof (app_loop_collect (unread c) []) as Hv.
  destruct (App.loop [] (unread c)) as [r rest].
  injection H as -> _. cbn [fst value_of] in Hv.
  rewrite parse_response_aggregate. cbn [fst].
  destruct (rbind (fst (collect (unread c))) join_empty);
    [discriminate Hv|reflexivity].
Qed.

Lemma app_finish_call_returns (c c' : Conn) (s : str) :
  App.parse_response c = (Return s, c') ->
  AppAPI.finish_call c =
  (match close_raises c' with
   | Some e => if swallowed e then Return s else Raise e
   | None => Return s
   end,
   {| unread := unread c';
      close_raises := close_raises c';
      close_calls := S (close_calls c') |}).
Proof.
  intros H. unfold AppAPI.finish_call, bind. rewrite H. simpl.
  unfold try_pass, response_close, ret.
  destruct (close_raises c') as [e|]; [|reflexivity].
  destruct (swallowed e); reflexivity.
Qed.

Lemma app_finish_call_raises (c c' : Conn) (e : exn) :
  App.parse_response c = (Raise e, c') ->
  AppAPI.finish_call c = (Raise e, c').
Proof.
  intros H. unfold AppAPI.finish_call, bind. now rewrite H.
Qed.

Section CallsCompared.

Context {C : Type} `{APIClient C}.
Variables (client : C) (net : Network).
Variables (prompt model : str) (web_search : bool) (provider : str).
Variables (auto_continue : bool) (api_key : option str).

Let data : value :=
  payload prompt model web_search provider auto_continue api_key.

Let call (chunked : bool) : Outcome :=
  enter_prompt client net prompt model web_search provider auto_continue
               api_key chunked.

Let app_call : AppAPI.Outcome :=
  AppAPI.enter_prompt client net prompt model web_search provider
                      auto_continue api_key.

(** X7.  For every client, network and arguments, [enter_prompt] of
    [src/app.py] and [enter_prompt] of [src/conversation/client.py] with
    [chunked=False] send the same requests, return the same string or both
    raise, and when the call of [src/app.py] returns, both leave the
    response in the same state. *)
Theorem app_call_agrees_with_client_call :
  AppAPI.sent app_call = sent (call false) /\
  option_map PStr (value_of (AppAPI.returned app_call)) =
  value_of (returned (call false)) /\
  (forall s, AppAPI.returned app_call = Return s ->
             AppAPI.response app_call = response (call false)).
Proof.
  unfold app_call, call, AppAPI.enter_prompt, enter_prompt. fold data.
  destruct (send_request client data net) as [reqs [resp|e]];
    [|repeat split].
  destruct (App.parse_response resp) as [[s|e] c'] eqn:Ea.
  - destruct (@app_parse_returns _ _ _ Ea) as [-> Hc].
    rewrite (@app_finish_call_returns _ _ _ Ea).
    rewrite (@finish_call_parser_returns _ _ _ Hc). simpl.
    destruct (close_raises resp) as [e|]; [destruct (swallowed e)|];
      repeat split.
  - rewrite (@app_finish_call_raises _ _ _ Ea). simpl.
    pose proof (@app_parse_raises _ _ _ Ea) as Hn.
    destruct (parse_response false resp) as [[p|e'] c''] eqn:Ec.
    + discriminate Hn.
    + rewrite (@finish_call_parser_raises _ _ _ Ec). simpl.
      repeat split. discriminate.
Qed.

(** X8.  When an aggregate-mode call has parsed the response to a string and
    [close()] then raises an exception that is not of requests, the
    exception leaves [enter_prompt] and the string is lost; [close()] has
    been called once. *)
Theorem close_failure_loses_the_string (resp : Conn) (s : str) (e : exn) :
  snd (send_request client data net) = Return resp ->
  fst (parse_response false resp) = Return (PStr s) ->
  close_raises resp = Some e ->
  swallowed e = false ->
  returned (call false) = Raise e /\
  response (call false) =
  Some {| unread := [];
          close_raises := close_raises resp;
          close_calls := S (close_calls resp) |}.
Proof.
  intros Hsend Hparse Hclose Hsw. unfold call, enter_prompt. fold data.
  destruct (send_request client data net) as [reqs r].
  simpl in Hsend. subst r.
  destruct (parse_response false resp) as [r c'] eqn:Ep.
  simpl in Hparse. subst r.
  destruct (@parse_response_returns _ _ _ Ep) as (s' & _ & ->).
  rewrite (@finish_call_parser_returns _ _ _ Ep). simpl.
  now rewrite Hclose, Hsw.
Qed.

End CallsCompared.

Lemma close_failure_loses_the_string_witness :
  let resp := fresh_response greeting_stream (Some OtherError) in
  let o := enter_prompt default_client (fun _ => Return resp) (lit "hello")
                        [] false [] true None false in
  returned o = Raise OtherError /\
  response o = Some {| unread := [];
                       close_raises := Some OtherError;
                       close_calls := 1 |}.
Proof.
  intros resp.
  apply (@close_failure_loses_the_string _ _ default_client
           (fun _ => Return resp) (lit "hello") [] false [] true None
           resp (lit "Hi there") OtherError).
  - reflexivity.
  - vm_compute. reflexivity.
  - reflexivity.
  - reflexivity.
Defined.

(** ** The prompt loop of [src/app.py] *)

Section PromptLoop.

Variable lower : str -> str.
Variable net : nat -> Network.
Variable console : Console.





End PromptLoop.


(** A result that holds a lone surrogate: the call returns it, [print] raises
    UnicodeEncodeError on a console that encodes with UTF-8, and the loop
    ends there, the second prompt unread. *)
Example prompt_loop_print_fails :
  let net : nat -> Network :=
    fun _ _ => Return (fresh_response [surrogate_event] None) in
  let s := AppAPI.ask_question ascii_lower net utf8_console
                               [lit "hello"; lit "again"] in
  AppAPI.returned (AppAPI.ask net 0 (lit "hello")) = Return [0xD800%N] /\
  AppAPI.requests s = [default_request (lit "hello")] /\
  AppAPI.output s = [AppAPI.Asked] /\
  AppAPI.ended s = AppAPI.Aborted UnicodeEncodeError.
Proof. vm_compute. repeat split. Qed.

(** ** [src/example.py] *)

Lemma print_chunks_next (console : Console) (n : nat) (g : generator)
  (c : Conn) :
  Script.print_chunks console n g c =
  match gen_next g c with
  | (Yield chunk, g', c') =>
    match console n chunk with
    | Some e => ([], Some e, (g', c'))
    | None =>
      let '(chunks, e, s) := Script.print_chunks console (S n) g' c' in
      (chunk :: chunks, e, s)
    end
  | (StopIteration, g', c') => ([], None, (g', c'))
  | (Raised e, g', c') => ([], Some e, (g', c'))
  end.
Proof.
  funelim (Script.print_chunks console n g c);
    match goal with E : gen_next _ _ = _ |- _ => rewrite E end; reflexivity.
Qed.

Lemma trace_resume (ls : list bytes) :
  trace ls =
  match resume ls with
  | (Yield v, rest) => let '(vs, e, u) := trace rest in (v :: vs, e, u)
  | (StopIteration, _) => ([], None, [])
  | (Raised e, rest) => ([], Some e, rest)
  end.
Proof.
  induction ls as [|line ls IH]; simpl; [reflexivity|].
  destruct (handle_line line); auto.
Qed.

Lemma collect_trace (ls : list bytes) :
  collect ls =
  (match snd (fst (trace ls)) with
   | None => Return (fst (fst (trace ls)))
   | Some e => Raise e
   end,
   snd (trace ls)).
Proof.
  induction ls as [|line ls IH]; simpl; [reflexivity|].
  destruct (handle_line line); auto.
  rewrite IH. destruct (trace ls) as [[vs [e|]] u]; reflexivity.
Qed.

(** A value the run yields is the content of a content event of the
    stream. *)
Lemma trace_carried (ls : list bytes) (v : value) :
  In v (fst (fst (trace ls))) -> exists line, In line ls /\ carries line v.
Proof.
  induction ls as [|l ls IH]; simpl; [tauto|].
  destruct (handle_line l) as [|w|e] eqn:E.
  - intros H. destruct (IH H) as (line & Hi & Hc). exists line. auto.
  - destruct (trace ls) as [[vs e] u]. simpl in *. intros [<-|H].
    + exists l. split; [now left|]. now apply handle_line_emit.
    + destruct (IH H) as (line & Hi & Hc). exists line. auto.
  - simpl. tauto.
Qed.

(** When no [print] raises on a chunk, the loop over the generator is the
    run [trace] describes. *)
Lemma print_chunks_trace (console : Console) (g : generator) (c : Conn) :
  (forall n v, In v (fst (fst (trace (unread c)))) -> console n v = None) ->
  forall n,
    Script.print_chunks console n g c =
    match g with
    | Suspended =>
      (fst (trace (unread c)),
       (Finished, set_unread (snd (trace (unread c))) c))
    | Finished => ([], None, (Finished, c))
    end.
Proof.
  remember (length (unread c)) as m eqn:Hm. revert g c Hm.
  induction m as [m IH] using lt_wf_ind. intros g c Hm Hall n.
  rewrite print_chunks_next. destruct g; [|reflexivity].
  simpl gen_next. revert Hall. rewrite trace_resume.
  destruct (resume (unread c)) as [[v| |e] rest] eqn:E; intros Hall.
  - assert (Hv : console n v = None).
    { apply Hall. destruct (trace rest) as [[vs e] u]. now left. }
    assert (Hrest : forall n w,
               In w (fst (fst (trace rest))) -> console n w = None).
    { intros n' w Hw. apply Hall.
      destruct (trace rest) as [[vs e] u]. now right. }
    rewrite Hv.
    rewrite (IH (length rest)) with (g := Suspended) (c := set_unread rest c).
    + simpl. destruct (trace rest) as [[vs e] u]. reflexivity.
    + subst m. eapply resume_yield_shorter; eassumption.
    + reflexivity.
    + exact Hrest.
  - apply resume_stop in E. subst rest. reflexivity.
  - reflexivity.
Qed.

(** An aggregate-mode call never returns a generator. *)
Lemma finish_call_returns_str (c c' : Conn) (p : parsed) :
  finish_call false c = (Return p, c') -> exists s, p = PStr s.
Proof.
  destruct (parse_response false c) as [[q|e] c1] eqn:Ep.
  - destruct (@parse_response_returns _ _ _ Ep) as (s & -> & _).
    rewrite (@finish_call_parser_returns _ _ _ Ep).
    destruct (close_raises c1) as [e|]; [destruct (swallowed e)|];
      intros [= <- _]; now exists s.
  - rewrite (@finish_call_parser_raises _ _ _ Ep). discriminate.
Qed.

(** X12.  Whatever the network answers and whatever the console does, the
    script never enters its generator branch.  When the call returns, it
    returns a string, and the one [print] of the script is given this
    string: the script prints it once, with the newline of [print], or ends
    in the exception [print] raises on it, with nothing printed.  When the
    call raises, the script prints nothing and ends in that exception. *)
Theorem script_prints_the_aggregate (console : Console) (net : Network) :
  match returned (enter_prompt default_client net Script.PROMPT
                               [] false [] true None false) with
  | Return (PStr s) =>
    Script.main console net =
    match console 0 (VStr s) with
    | Some e => ([], Some e)
    | None => ([(VStr s, Script.newline)], None)
    end
  | Return (PGen _) => False
  | Raise e => Script.main console net = ([], Some e)
  end.
Proof.
  unfold Script.main, default_client. rewrite enter_prompt_on_client.
  cbv zeta.
  destruct (net (conversation_request _ _)) as [resp|e]; [|reflexivity].
  destruct (finish_call false resp) as [[p|e] c'] eqn:Ef; [|reflexivity].
  destruct (finish_call_returns_str _ Ef) as [s ->]. simpl.
  destruct (console 0 (VStr s)); reflexivity.
Qed.

(** A response whose one fragment is a lone surrogate: the call returns the
    string, and on a console that encodes with UTF-8 the script ends in
    UnicodeEncodeError. *)
Example script_print_fails :
  let net : Network :=
    fun _ => Return (fresh_response [surrogate_event] None) in
  returned (enter_prompt default_client net Script.PROMPT
                         [] false [] true None false) =
  Return (PStr [0xD800%N]) /\
  Script.main utf8_console net = ([], Some UnicodeEncodeError).
Proof. vm_compute. split; reflexivity. Qed.

(** X13.  On a response whose content events carry nothing on which [print]
    raises, the chunk loop of the script, run on the streaming result, reads
    exactly as far as aggregate mode does.  When aggregate mode returns the
    string [s], the loop ends without an exception and the chunks it prints
    write [s].  When aggregate mode raises, the loop ends in the same
    exception, or else it has printed every chunk and the exception is the
    TypeError of the [join]. *)
Theorem chunk_loop_matches_aggregate (console : Console) (c : Conn) :
  (forall n line v,
      In line (unread c) -> carries line v -> console n v = None) ->
  snd (Script.show console (PGen Suspended) c) =
  snd (parse_response false c) /\
  match fst (parse_response false c) with
  | Return (PStr s) =>
    snd (fst (Script.show console (PGen Suspended) c)) = None /\
    Script.written (fst (fst (Script.show console (PGen Suspended) c))) = s
  | Return (PGen _) => False
  | Raise e =>
    snd (fst (Script.show console (PGen Suspended) c)) = Some e \/
    (snd (fst (Script.show console (PGen Suspended) c)) = None /\
     e = TypeError)
  end.
Proof.
  intros Hall. unfold Script.show.
  rewrite print_chunks_trace, parse_response_aggregate.
  - rewrite collect_trace.
    destruct (trace (unread c)) as [[vs [e|]] u]; simpl.
    + split; [reflexivity|]. now left.
    + split; [reflexivity|]. rewrite join_empty_text.
      destruct (forallb is_str vs) eqn:Ev; simpl.
      * repeat split.
        unfold Script.written. rewrite map_map. simpl.
        f_equal. apply map_ext. intros v. now rewrite app_nil_r.
      * now right.
  - intros n v Hv. destruct (trace_carried _ _ Hv) as (line & Hi & Hc).
    now apply (Hall n line v).
Qed.

(** No [print] raises on the fragments of the greeting on a console that
    encodes with UTF-8. *)
Lemma greeting_stream_printable (n : nat) (line : bytes) (v : value) :
  In line greeting_stream -> carries line v -> utf8_console n v = None.
Proof.
  intros Hi Hc. apply handle_line_emit in Hc.
  destruct Hi as [<-|[<-|[<-|[]]]]; vm_compute in Hc;
    try discriminate Hc; injection Hc as <-; reflexivity.
Qed.

Lemma chunk_loop_matches_aggregate_witness :
  let c := fresh_response greeting_stream None in
  snd (Script.show utf8_console (PGen Suspended) c) =
  snd (parse_response false c) /\
  match fst (parse_response false c) with
  | Return (PStr s) =>
    snd (fst (Script.show utf8_console (PGen Suspended) c)) = None /\
    Script.written (fst (fst (Script.show utf8_console (PGen Suspended) c)))
    = s
  | Return (PGen _) => False
  | Raise e =>
    snd (fst (Script.show utf8_console (PGen Suspended) c)) = Some e \/
    (snd (fst (Script.show utf8_console (PGen Suspended) c)) = None /\
     e = TypeError)
  end.
Proof.
  intros c.
  apply (@chunk_loop_matches_aggregate utf8_console c).
  exact greeting_stream_printable.
Defined.

(** The loop run on the lines of a connection, a passed-over line first. *)
Lemma print_chunks_ignored (console : Console) (n : nat) (line : bytes)
  (ls : list bytes) (cr : option exn) (cc : nat) :
  handle_line line = Skip ->
  Script.print_chunks console n Suspended (mkConn (line :: ls) cr cc) =
  Script.print_chunks console n Suspended (mkConn ls cr cc).
Proof.
  intros H. rewrite (print_chunks_next console n Suspended (mkConn ls cr cc)).
  rewrite print_chunks_next. now rewrite (@gen_next_ignored line ls cr cc H).
Qed.

(** X14.  When [print] raises on a chunk, the chunk loop of the script ends
    in that exception where it stands: after a well-formed beginning whose
    fragments were printed, it has read the response up to the line that
    carries the chunk and no further, the lines behind it stay unread, the
    generator is left suspended, and the response is not closed. *)
Theorem chunk_loop_stops_at_failed_print (console : Console)
  (before after : list bytes) (fs : list str) (line : bytes) (v : value)
  (e : exn) (cr : option exn) (cc : nat) (n : nat) :
  well_formed before fs ->
  (forall i f, nth_error fs i = Some f -> console (n + i) (VStr f) = None) ->
  carries line v ->
  console (n + length fs) v = Some e ->
  Script.print_chunks console n Suspended
                      (mkConn (before ++ line :: after) cr cc) =
  (map VStr fs, Some e, (Suspended, mkConn after cr cc)).
Proof.
  intros Hw. revert n.
  induction Hw as [|l ls fs Hi _ IH|l f ls fs Hc _ IH];
    intros n Hfs Hcar He; cbn [app].
  - apply handle_line_emit in Hcar.
    rewrite print_chunks_next, (@gen_next_emit line v after cr cc Hcar).
    simpl in He. rewrite Nat.add_0_r in He. now rewrite He.
  - rewrite (@print_chunks_ignored console n l (ls ++ line :: after) cr cc
               (handle_line_ignored Hi)).
    now apply IH.
  - rewrite print_chunks_next,
      (@gen_next_emit l _ (ls ++ line :: after) cr cc
         (handle_line_content Hc)).
    pose proof (Hfs 0 f eq_refl) as H0. rewrite Nat.add_0_r in H0.
    rewrite H0, (IH (S n)); [reflexivity| |exact Hcar|].
    + intros i f' Hi. specialize (Hfs (S i) f' Hi).
      now rewrite Nat.add_succ_r in Hfs.
    + simpl in He. now rewrite Nat.add_succ_r in He.
Qed.

Lemma surrogate_event_carries : carries surrogate_event (VStr [0xD800%N]).
Proof. content_line. Defined.

Lemma chunk_loop_stops_at_failed_print_witness :
  Script.print_chunks utf8_console 0 Suspended
    (mkConn ([hi_event] ++ surrogate_event :: [hi_event]) None 0) =
  (map VStr [lit "Hi"], Some UnicodeEncodeError,
   (Suspended, mkConn [hi_event] None 0)).
Proof.
  apply (@chunk_loop_stops_at_failed_print utf8_console [hi_event] [hi_event]
           [lit "Hi"] surrogate_event (VStr [0xD800%N]) UnicodeEncodeError
           None 0 0).
  - exact hi_event_well_formed.
  - intros [|[|i]] f; simpl; intros Hf; try discriminate Hf.
    injection Hf as <-. reflexivity.
  - exact surrogate_event_carries.
  - reflexivity.
Defined.

(** ** The responses of the prompt loop *)

Lemma ask_on_network (net : nat -> Network) (k : nat) (prompt : str) :
  AppAPI.ask net k prompt =
  match net k (default_request prompt) with
  | Return response =>
    let (r, response') := AppAPI.finish_call response in
    AppAPI.mkOutcome [default_request prompt] r (Some response')
  | Raise e => AppAPI.mkOutcome [default_request prompt] (Raise e) None
  end.
Proof. reflexivity. Qed.

Lemma app_ask_returns (net : nat -> Network) (k : nat) (prompt r : str) :
  AppAPI.returned (AppAPI.ask net k prompt) = Return r ->
  exists resp,
    net k (default_request prompt) = Return resp /\
    AppAPI.response (AppAPI.ask net k prompt) =
    Some {| unread := [];
            close_raises := close_raises resp;
            close_calls := S (close_calls resp) |}.
Proof.
  rewrite ask_on_network.
  destruct (net k (default_request prompt)) as [resp|e]; [|discriminate].
  destruct (App.parse_response resp) as [[s|e] c'] eqn:Ea.
  - destruct (@app_parse_returns _ _ _ Ea) as [-> _].
    rewrite (@app_finish_call_returns _ _ _ Ea).
    intros _. now exists resp.
  - rewrite (@app_finish_call_raises _ _ _ Ea). discriminate.
Qed.

(** X11.  When the network hands over responses that have not been closed,
    the loop leaves the response of every call whose result it has printed
    read to its end and closed exactly once. *)
Theorem prompt_loop_closes_responses (lower : str -> str)
  (net : nat -> Network) (console : Console) (stdin : list str) (k : nat) :
  (forall i req resp, net i req = Return resp -> close_calls resp = 0) ->
  let s := AppAPI.ask_question_from lower net console k stdin in
  Forall (fun r => exists c,
                     r = Some c /\ unread c = [] /\ close_calls c = 1)
         (firstn (length (AppAPI.printed (AppAPI.output s)))
                 (AppAPI.responses s)).
Proof.
  intros Hfresh. revert k. induction stdin as [|p rest IH]; intros k.
  - constructor.
  - cbn zeta. simpl AppAPI.ask_question_from.
    destruct (str_eqb (lower p) (lit "quit")); [constructor|].
    destruct (AppAPI.returned (AppAPI.ask net k p)) as [r|e] eqn:Er;
      [|constructor].
    destruct (console k (VStr r)); [constructor|].
    simpl. constructor; [|apply IH].
    destruct (app_ask_returns net k p Er) as (resp & Hn & ->).
    eexists. split; [reflexivity|]. split; [reflexivity|].
    simpl. now rewrite (Hfresh _ _ _ Hn).
Qed.

Lemma prompt_loop_closes_responses_witness :
  let net : nat -> Network :=
    fun _ _ => Return (fresh_response greeting_stream None) in
  Forall (fun r => exists c,
                     r = Some c /\ unread c = [] /\ close_calls c = 1)
         (firstn
            (length
               (AppAPI.printed
                  (AppAPI.output
                     (AppAPI.ask_question_from ascii_lower net utf8_console 0
                        [lit "hello"; lit "again"; lit "quit"]))))
            (AppAPI.responses
               (AppAPI.ask_question_from ascii_lower net utf8_console 0
                  [lit "hello"; lit "again"; lit "quit"]))).
Proof.
  intros net.
  apply (@prompt_loop_closes_responses ascii_lower net utf8_console
           [lit "hello"; lit "again"; lit "quit"] 0).
  intros i req resp Hr. injection Hr as <-. reflexivity.
Defined.
